(** * constexpr_sudoku: a shallow embedding of [sudoku_constexpr.cpp]

    The development follows the source file top to bottom:
    [math::isqrt], then the class [GenSudoku<T, N>] with its accessors
    [get] and [put], the section extractors [row], [col] and [quadrant],
    the predicates [sectionValid], [isValid], [isComplete], [isSolved],
    the scan [next] and the backtracking search [solve].

    Conventions of the embedding.
    - [size_t] is the 64-bit unsigned type; every [size_t] operation of the
      source is written with its wrap-around ([sz_add], [sz_mul]).
    - The cell type [T] is [unsigned int], as in the alias
      [Sudoku = GenSudoku<unsigned int, 9u>]; the dimension [N] stays a
      parameter.
    - A [std::array] is a list; an access outside the array has no defined
      behaviour in C++ (and stops a constant evaluation), so array reads and
      writes are fallible and yield [OutOfBounds].
    - Recursion depth of [solve] is counted by a fuel argument; running out
      of it yields [OutOfFuel]. *)

From stdpp Require Import base tactics option list numbers.

Local Open Scope Z_scope.

(** ** Results of fallible computations *)

Inductive result (A : Type) : Type :=
| Ok (a : A)
| OutOfBounds
| OutOfFuel.

Arguments Ok {A} a.
Arguments OutOfBounds {A}.
Arguments OutOfFuel {A}.

Definition bind {A B : Type} (m : result A) (k : A → result B) : result B :=
  match m with
  | Ok a => k a
  | OutOfBounds => OutOfBounds
  | OutOfFuel => OutOfFuel
  end.

Notation "'let*' x := m 'in' k" := (bind m (fun x => k))
  (at level 10, x pattern, m at level 100, k at level 200).

(** ** Machine integers *)

Module Machine.

(** Width of [size_t]. *)
Definition size_bits : Z := 64.

Definition SIZE_MOD : Z := 2 ^ size_bits.

(** [std::numeric_limits<size_t>::max()]. *)
Definition SIZE_MAX : Z := SIZE_MOD - 1.

(** Number of values of the cell type [unsigned int]. *)
Definition UINT_MOD : Z := 2 ^ 32.

Definition sz_wrap (a : Z) : Z := a mod SIZE_MOD.
Definition sz_add (a b : Z) : Z := sz_wrap (a + b).
Definition sz_mul (a b : Z) : Z := sz_wrap (a * b).

(** A value of type [size_t]. *)
Definition is_size (a : Z) : Prop := 0 ≤ a < SIZE_MOD.

(** A value of type [unsigned int]. *)
Definition is_uint (a : Z) : Prop := 0 ≤ a < UINT_MOD.

End Machine.

Import Machine.

(** ** Arrays *)

(** [a[k]] as an rvalue. *)
Definition aget {A : Type} (a : list A) (k : Z) : result A :=
  match a !! Z.to_nat k with
  | Some v => Ok v
  | None => OutOfBounds
  end.

(** [a[k] = v]. *)
Definition aset {A : Type} (a : list A) (k : Z) (v : A) : result (list A) :=
  if decide (Z.to_nat k < length a)%nat
  then Ok (<[Z.to_nat k := v]> a)
  else OutOfBounds.

(** ** Loops *)

(** The index range [0 .. n-1] of [for (k = 0; k < n; ++k)]. *)
Definition range (n : Z) : list Z := seqZ 0 n.

(** A loop whose body updates a local variable. *)
Fixpoint foldM {S : Type} (body : Z → S → result S) (ks : list Z) (s : S)
  : result S :=
  match ks with
  | [] => Ok s
  | k :: ks' => let* s' := body k s in foldM body ks' s'
  end.

(** A loop of the form [for (...) if (!p(k)) return false;] followed by
    [return true]. *)
Fixpoint allM (p : Z → result bool) (ks : list Z) : result bool :=
  match ks with
  | [] => Ok true
  | k :: ks' => let* v := p k in if v then allM p ks' else Ok false
  end.

(** A loop that returns at the first index where [f] finds something. *)
Fixpoint firstM {A : Type} (f : Z → result (option A)) (ks : list Z)
  : result (option A) :=
  match ks with
  | [] => Ok None
  | k :: ks' =>
      let* o := f k in
      match o with
      | Some a => Ok (Some a)
      | None => firstM f ks'
      end
  end.

(** ** [math::isqrt] *)

Module math.

(** The loop [for (T t{}; t < n; ++t) if (t*t == n) return t;] at
    [T = size_t], followed by [return T{}].  [steps] bounds the number of
    iterations; the loop leaves through its test [t < n] after at most [n]
    of them. *)
Fixpoint isqrt_loop (steps : nat) (t n : Z) : Z :=
  match steps with
  | O => 0
  | S steps' =>
      if t <? n then
        if sz_mul t t =? n then t
        else isqrt_loop steps' (sz_add t 1) n
      else 0
  end.

Definition isqrt (n : Z) : Z := isqrt_loop (S (Z.to_nat n)) 0 n.

End math.

(** ** [GenSudoku<unsigned int, N>] *)

Record GenSudoku : Type := mkSudoku { boardState : list Z }.

Section GenSudoku.

(** The dimension of the board, a [size_t] template argument. *)
Variable N : Z.

(** The linear index [x * N + y]. *)
Definition index (x y : Z) : Z := sz_add (sz_mul x N) y.

(** The number of cells, [N * N], the length of [BoardState]. *)
Definition cells : Z := sz_mul N N.

(** [x * N + y >= N * N ? 0 : boardState[x * N + y]] *)
Definition get (b : GenSudoku) (x y : Z) : result Z :=
  if cells <=? index x y then Ok 0
  else aget (boardState b) (index x y).

(** [boardState[x * N + y] = val; return *this;]

    [put] is a non-const member: it writes into the receiver and returns
    a copy of it.  The result is the pair of the returned board and of the
    receiver after the call. *)
Definition put (this : GenSudoku) (x y val : Z)
  : result (GenSudoku * GenSudoku) :=
  let* bs := aset (boardState this) (index x y) val in
  let this' := mkSudoku bs in
  Ok (this', this').

(** [side()]: the side length of the quadrants. *)
Definition side : Z := math.isqrt N.

(** [BoardSection bs{}]: a section of [N] zeroes. *)
Definition empty_section : list Z := replicate (Z.to_nat N) 0.

(** [for (auto y = 0; y < N; ++y) bs[y] = boardState[x * N + y];] *)
Definition row (b : GenSudoku) (x : Z) : result (list Z) :=
  foldM (λ y bs,
           let* v := aget (boardState b) (index x y) in
           aset bs y v)
        (range N) empty_section.

(** [for (auto x = 0; x < N; ++x) bs[x] = boardState[x * N + y];] *)
Definition col (b : GenSudoku) (y : Z) : result (list Z) :=
  foldM (λ x bs,
           let* v := aget (boardState b) (index x y) in
           aset bs x v)
        (range N) empty_section.

(** [bs[i * side() + j] = boardState[side() * (x * N + y) + (i * N + j)]]
    for [i] and [j] below [side()]. *)
Definition quadrant (b : GenSudoku) (x y : Z) : result (list Z) :=
  foldM (λ i bs,
           foldM (λ j bs,
                    let* v := aget (boardState b)
                                (sz_add (sz_mul side (index x y))
                                        (sz_add (sz_mul i N) j)) in
                    aset bs (sz_add (sz_mul i side) j) v)
                 (range side) bs)
        (range side) empty_section.

(** The body of [sectionValid]'s loop over the section, [positions] being
    the presence table. *)
Fixpoint sectionValid_loop (positions : list bool) (bs : list Z)
  : result bool :=
  match bs with
  | [] => Ok true
  | i :: bs' =>
      if i =? 0 then sectionValid_loop positions bs'
      else
        let* seen := aget positions i in
        if (seen : bool) then Ok false
        else
          let* positions' := aset positions i true in
          sectionValid_loop positions' bs'
  end.

(** [std::array<bool, N+1> positions{}] and the loop. *)
Definition sectionValid (bs : list Z) : result bool :=
  sectionValid_loop (replicate (Z.to_nat (sz_add N 1)) false) bs.

(** [std::find(cbegin(bs), cend(bs), 0) == cend(bs)] *)
Definition sectionComplete (bs : list Z) : bool :=
  forallb (λ i, negb (i =? 0)) bs.

Definition rowValid (b : GenSudoku) (x : Z) : result bool :=
  let* bs := row b x in sectionValid bs.

Definition colValid (b : GenSudoku) (y : Z) : result bool :=
  let* bs := col b y in sectionValid bs.

Definition quadrantValid (b : GenSudoku) (x y : Z) : result bool :=
  let* bs := quadrant b x y in sectionValid bs.

Definition rowComplete (b : GenSudoku) (x : Z) : result bool :=
  let* bs := row b x in Ok (sectionComplete bs).

Definition colComplete (b : GenSudoku) (y : Z) : result bool :=
  let* bs := col b y in Ok (sectionComplete bs).

Definition quadrantComplete (b : GenSudoku) (x y : Z) : result bool :=
  let* bs := quadrant b x y in Ok (sectionComplete bs).

(** The inner loop of [next], over the cells of row [x]. *)
Definition next_in_row (b : GenSudoku) (x : Z) : result (option (Z * Z)) :=
  firstM (λ y,
            let* v := get b x y in
            Ok (if v =? 0 then Some (x, y) else None))
         (range N).

(** The first empty position in row-major order, or the pair of
    [SIZE_MAX]. *)
Definition next (b : GenSudoku) : result (Z * Z) :=
  let* o := firstM (next_in_row b) (range N) in
  Ok (default (SIZE_MAX, SIZE_MAX) o).

(** Rows first, then columns, then quadrants. *)
Definition isValid (b : GenSudoku) : result bool :=
  let* r := allM (rowValid b) (range N) in
  if negb r then Ok false
  else
    let* c := allM (colValid b) (range N) in
    if negb c then Ok false
    else
      allM (λ x, allM (λ y, quadrantValid b x y) (range side))
           (range side).

Definition isComplete (b : GenSudoku) : result bool :=
  allM (λ x,
          allM (λ y, let* v := get b x y in Ok (negb (v =? 0)))
               (range N))
       (range N).

(** [isValid() && isComplete()] *)
Definition isSolved (b : GenSudoku) : result bool :=
  let* v := isValid b in
  if v then isComplete b else Ok false.

(** The candidate digits of [for (unsigned i = 1; i <= N; ++i)]. *)
Definition digits : list Z := seqZ 1 N.

(** The loop of [solve] over the candidate digits; [rec] is the recursive
    call.  [put] is applied to the temporary [GenSudoku( *this)], so
    [this] itself is not written. *)
Fixpoint try_digits (rec : GenSudoku → result GenSudoku)
    (this : GenSudoku) (x y : Z) (ds : list Z) : result GenSudoku :=
  match ds with
  | [] => Ok this
  | i :: ds' =>
      let temporary := this in
      let* (ns, _) := put temporary x y i in
      let* res := rec ns in
      let* c := isComplete res in
      if (c : bool) then
        let* v := isValid res in
        if (v : bool) then Ok res else try_digits rec this x y ds'
      else try_digits rec this x y ds'
  end.

(** [solve], with the depth of the recursion bounded by [fuel]. *)
Fixpoint solve_rec (fuel : nat) (this : GenSudoku) : result GenSudoku :=
  match fuel with
  | O => OutOfFuel
  | S fuel' =>
      let* v := isValid this in
      if negb v then Ok this
      else
        let* (x, y) := next this in
        if x =? SIZE_MAX then Ok this
        else try_digits (solve_rec fuel') this x y digits
  end.

(** One frame per cell and one for the complete board. *)
Definition solve (this : GenSudoku) : result GenSudoku :=
  solve_rec (S (Z.to_nat cells)) this.

End GenSudoku.

(** ** [operator<<] and [main] *)

(** What [operator<<] inserts into the stream: a cell as a number, the
    character [' '] or the character ['\n']. *)
Inductive token : Type :=
| Number (v : Z)
| Space
| Newline.

Section Output.

Variable N : Z.

(** [operator<<(out, board)]: for each row, [out << board(x, y) << ' '] for
    each column, then [out << '\n'].  [board(x, y)] is [get(x, y)]. *)
Definition print (out : list token) (board : GenSudoku)
  : result (list token) :=
  foldM (λ x out,
           let* out := foldM (λ y out,
                                let* v := get N board x y in
                                Ok (out ++ [Number v; Space]))
                             (range N) out in
           Ok (out ++ [Newline]))
        (range N) out.

End Output.

(** The body of [main] on the board [sudoku], at [Sudoku = GenSudoku<unsigned
    int, 9u>]: what is written to [std::cout] and the exit status. *)
Definition run (sudoku : GenSudoku) : result (list token * Z) :=
  let* res := solve 9 sudoku in
  let* out := print 9 [] res in
  let* solved := isSolved 9 res in
  Ok (out, if (solved : bool) then 0 else 1).

(** ** Boards used as examples *)

(** The board of [main]. *)
Definition expert : GenSudoku := mkSudoku
  [5; 0; 0;  9; 0; 0;  8; 0; 0;
   0; 0; 7;  0; 0; 2;  0; 0; 0;
   0; 4; 0;  0; 7; 0;  0; 0; 3;
   9; 0; 0;  1; 0; 0;  0; 7; 0;
   0; 0; 4;  0; 6; 0;  3; 0; 0;
   0; 8; 0;  0; 0; 7;  0; 0; 9;
   1; 0; 0;  0; 4; 0;  0; 9; 0;
   0; 0; 0;  5; 0; 0;  7; 0; 0;
   0; 0; 6;  0; 0; 3;  0; 0; 2].

(** A completion of the board of [main]. *)
Definition expert_solved : GenSudoku := mkSudoku
  [5; 6; 2;  9; 3; 1;  8; 4; 7;
   3; 1; 7;  4; 8; 2;  9; 6; 5;
   8; 4; 9;  6; 7; 5;  2; 1; 3;
   9; 3; 5;  1; 2; 4;  6; 7; 8;
   7; 2; 4;  8; 6; 9;  3; 5; 1;
   6; 8; 1;  3; 5; 7;  4; 2; 9;
   1; 7; 3;  2; 4; 8;  5; 9; 6;
   2; 9; 8;  5; 1; 6;  7; 3; 4;
   4; 5; 6;  7; 9; 3;  1; 8; 2].

(** [main]: the body of [main] on its board. *)
Definition main : result (list token * Z) := run expert.

(** A board of dimension 4 and its completion. *)
Definition small : GenSudoku := mkSudoku
  [1; 0; 0; 0;
   0; 0; 3; 0;
   0; 4; 0; 0;
   0; 0; 0; 2].

Definition small_solved : GenSudoku := mkSudoku
  [1; 3; 2; 4;
   4; 2; 3; 1;
   2; 4; 1; 3;
   3; 1; 4; 2].

(** The contradictory board of dimension 9: two [5] in the first row,
    every other cell empty. *)
Definition contradictory : GenSudoku := mkSudoku (5 :: 5 :: replicate 79 0).

(** ** Vocabulary of the statements *)

(** The dimensions the embedding covers: the [int] counters of [row],
    [col] and [quadrant] and the [unsigned] counter of [solve] reach [N]
    without overflow. *)
Definition dimension (N : Z) : Prop := 0 ≤ N < 2 ^ 31.

(** A value of the type [GenSudoku<unsigned int, N>]: an array of [N * N]
    cells of type [unsigned int]. *)
Definition wf_board (N : Z) (b : GenSudoku) : Prop :=
  length (boardState b) = Z.to_nat (cells N) ∧
  Forall is_uint (boardState b).

(** The data-model invariant: every cell is [0] or a digit [1..N]. *)
Definition in_range (N : Z) (b : GenSudoku) : Prop :=
  Forall (λ c, 0 ≤ c ≤ N) (boardState b).

(** Cell by cell, [s] holds every non-zero value of [b]: the two boards
    have the same cells and [s] agrees with [b] wherever [b] is not
    empty. *)
Definition clue (c d : Z) : Prop := c ≠ 0 → d = c.

Definition keeps_clues (b s : GenSudoku) : Prop :=
  Forall2 clue (boardState b) (boardState s).

(** The number of empty cells. *)
Definition zeros (b : GenSudoku) : nat :=
  length (filter (λ c, c = 0) (boardState b)).

(** Lexicographic comparison of two boards read in row-major order. *)
Fixpoint lex_le (l1 l2 : list Z) : Prop :=
  match l1, l2 with
  | [], _ => True
  | _ :: _, [] => False
  | a :: l1', b :: l2' => a < b ∨ (a = b ∧ lex_le l1' l2')
  end.

(** The value [v] is found at two places of the section. *)
Definition occurs_twice (v : Z) (bs : list Z) : Prop :=
  ∃ i j : nat, (i < j)%nat ∧ bs !! i = Some v ∧ bs !! j = Some v.

(** What every extracted section satisfies: it has [N] entries, each of
    them [0] or a cell of the board. *)
Definition section_of (N : Z) (b : GenSudoku) (bs : list Z) : Prop :=
  length bs = Z.to_nat N ∧
  ∀ P : Z → Prop, P 0 → Forall P (boardState b) → Forall P bs.

(** A solution of [b]: a solved board of the same type that keeps the
    clues of [b]. *)
Definition solution_of (N : Z) (b s : GenSudoku) : Prop :=
  wf_board N s ∧ isSolved N s = Ok true ∧ keeps_clues b s.

(** What a call of [solve] on [b] returns. *)
Definition search_post (N : Z) (b r : GenSudoku) : Prop :=
  wf_board N r ∧ in_range N r ∧ keeps_clues b r ∧
  ∀ s, solution_of N b s →
       isSolved N r = Ok true ∧ lex_le (boardState r) (boardState s).

(** Two positions share a row, a column or, when the dimension has a
    quadrant side, a quadrant. *)
Definition same_unit (N x1 y1 x2 y2 : Z) : Prop :=
  x1 = x2 ∨ y1 = y2 ∨
  (0 < side N ∧ x1 / side N = x2 / side N ∧ y1 / side N = y2 / side N).

(** The numbers of an output, in the order they were written. *)
Fixpoint numbers (out : list token) : list Z :=
  match out with
  | [] => []
  | Number v :: out' => v :: numbers out'
  | _ :: out' => numbers out'
  end.

(** The number of line ends of an output. *)
Fixpoint newlines (out : list token) : nat :=
  match out with
  | [] => 0%nat
  | Newline :: out' => S (newlines out')
  | _ :: out' => newlines out'
  end.

(** Closed goals about the cells of a concrete board. *)
Ltac cells_by tac := repeat (apply Forall_cons; [tac|]); apply Forall_nil.

Ltac uint_cells := cells_by ltac:(unfold is_uint, UINT_MOD; lia).

Ltac clue_cells :=
  repeat (apply Forall2_cons; [unfold clue; lia|]); apply Forall2_nil.

(** * Properties *)

(** ** Machine arithmetic *)

Lemma SIZE_MOD_eq : SIZE_MOD = 18446744073709551616.
Proof. reflexivity. Qed.

Lemma sz_wrap_small a : 0 ≤ a < SIZE_MOD → sz_wrap a = a.
Proof. intros H. unfold sz_wrap. by apply Z.mod_small. Qed.

Lemma sz_wrap_range a : 0 ≤ sz_wrap a < SIZE_MOD.
Proof. unfold sz_wrap. apply Z.mod_pos_bound. by rewrite SIZE_MOD_eq. Qed.

Lemma sz_add_small a b : 0 ≤ a + b < SIZE_MOD → sz_add a b = a + b.
Proof. apply sz_wrap_small. Qed.

Lemma sz_mul_small a b : 0 ≤ a * b < SIZE_MOD → sz_mul a b = a * b.
Proof. apply sz_wrap_small. Qed.

Lemma sz_add_range a b : 0 ≤ sz_add a b < SIZE_MOD.
Proof. apply sz_wrap_range. Qed.

Lemma sz_mul_range a b : 0 ≤ sz_mul a b < SIZE_MOD.
Proof. apply sz_wrap_range. Qed.

(** ** [math::isqrt] *)

Lemma isqrt_loop_spec steps : ∀ t n,
  0 ≤ t → n < SIZE_MOD → (Z.to_nat (n - t) < steps)%nat →
  (∀ t', t ≤ t' < n → sz_mul t' t' = n →
     t ≤ math.isqrt_loop steps t n ≤ t' ∧
     sz_mul (math.isqrt_loop steps t n) (math.isqrt_loop steps t n) = n) ∧
  ((∀ t', t ≤ t' < n → sz_mul t' t' ≠ n) → math.isqrt_loop steps t n = 0).
Proof.
  induction steps as [|steps IH]; intros t n Ht Hn Hsteps; [lia|].
  cbn [math.isqrt_loop].
  destruct (Z.ltb_spec t n) as [Hlt|Hge].
  - destruct (Z.eqb_spec (sz_mul t t) n) as [Heq|Hne].
    + split; [intros t' Ht' _; split; [lia | done] |].
      intros Hnone. destruct (Hnone t); [lia | done].
    + rewrite sz_add_small by lia.
      destruct (IH (t + 1) n) as [IH1 IH2]; [lia | lia | lia |].
      split.
      * intros t' Ht' Hsq.
        assert (t' ≠ t) by (intros ->; done).
        destruct (IH1 t') as [? ?]; [lia | done |]. split; [lia | done].
      * intros Hnone. apply IH2. intros t' Ht'. apply Hnone. lia.
  - split; [intros t' Ht'; lia | done].
Qed.

Lemma isqrt_scan (n : Z) :
  is_size n →
  (∀ t, 0 ≤ t < n → sz_mul t t = n →
     0 ≤ math.isqrt n ≤ t ∧ sz_mul (math.isqrt n) (math.isqrt n) = n) ∧
  ((∀ t, 0 ≤ t < n → sz_mul t t ≠ n) → math.isqrt n = 0).
Proof.
  intros [Hn0 Hn]. unfold math.isqrt.
  apply (isqrt_loop_spec (S (Z.to_nat n)) 0 n); lia.
Qed.

Lemma isqrt_exact (n s : Z) :
  is_size n → 0 ≤ s < n → s * s = n → math.isqrt n = s.
Proof.
  intros Hsz Hs Hsq. destruct (isqrt_scan n Hsz) as [H1 _].
  destruct Hsz as [Hn0 Hn].
  assert (Hs2 : sz_mul s s = n) by (rewrite sz_mul_small; lia).
  destruct (H1 s Hs Hs2) as [Hr Hrr].
  destruct (Z.eq_dec (math.isqrt n) s) as [|Hne]; [done|].
  assert (math.isqrt n * math.isqrt n < n) by nia.
  rewrite sz_mul_small in Hrr by nia. lia.
Qed.

Lemma isqrt_no_wrap (n : Z) :
  0 ≤ n ≤ 2 ^ 32 →
  (0 ≤ math.isqrt n < n ∧ math.isqrt n * math.isqrt n = n) ∨
  (math.isqrt n = 0 ∧ ∀ t, 0 ≤ t < n → t * t ≠ n).
Proof.
  intros Hsmall.
  assert (Hsz : is_size n) by (unfold is_size; rewrite SIZE_MOD_eq; lia).
  destruct (isqrt_scan n Hsz) as [_ H2].
  assert (Hnowrap : ∀ t, 0 ≤ t < n → sz_mul t t = t * t).
  { intros t Ht. apply sz_mul_small. rewrite SIZE_MOD_eq. nia. }
  destruct (decide (0 ≤ math.isqrt n < n ∧ math.isqrt n * math.isqrt n = n))
    as [Hr|Hr]; [by left|].
  assert (Hnone : ∀ t, 0 ≤ t < n → t * t ≠ n).
  { intros t Ht Hsq. apply Hr. rewrite (isqrt_exact n t Hsz Ht Hsq). done. }
  right. split; [|done].
  apply H2. intros t Ht. rewrite Hnowrap by done. by apply Hnone.
Qed.

Lemma not_square_wrapped (t : Z) : t * t ≠ 8589934593.
Proof.
  intros Hsq.
  assert (Hcases : t ≤ -92682 ∨ -92681 ≤ t ≤ 92681 ∨ 92682 ≤ t) by lia.
  destruct Hcases as [Hlo | [Hmid | Hhi]]; nia.
Qed.

Lemma isqrt_wrapped : math.isqrt 8589934593 = 4294967297.
Proof.
  assert (Hsz : is_size 8589934593)
    by (unfold is_size; rewrite SIZE_MOD_eq; lia).
  destruct (isqrt_scan _ Hsz) as [H1 _].
  destruct (H1 4294967297) as [Hr Hrr]; [lia | reflexivity |].
  destruct (Z.eq_dec (math.isqrt 8589934593) 4294967297) as [Heq|Hne];
    [exact Heq|].
  exfalso.
  destruct (Z.eq_dec (math.isqrt 8589934593) 4294967296) as [Heq|Hne'].
  - rewrite Heq in Hrr. vm_compute in Hrr. discriminate Hrr.
  - rewrite sz_mul_small in Hrr by (rewrite SIZE_MOD_eq; nia).
    exact (not_square_wrapped _ Hrr).
Qed.

(** C5.  The comparison [t*t == n] of the scan is made in [size_t], so a
    product that wraps can match an [n] that is the square of no integer.
    [n = 2^33 + 1 = 8589934593] is a [size_t] value and no integer has
    square [n]; yet [isqrt n] is [2^32 + 1 = 4294967297], whose product
    wraps to [n], and not the [0] that the comment of the function
    promises when there is no integer square root. *)
Theorem isqrt_wrapped_root :
  is_size 8589934593 ∧
  (∀ t : Z, t * t ≠ 8589934593) ∧
  math.isqrt 8589934593 = 4294967297 ∧
  sz_mul 4294967297 4294967297 = 8589934593.
Proof.
  split; [unfold is_size; rewrite SIZE_MOD_eq; lia|].
  split; [exact not_square_wrapped|].
  split; [exact isqrt_wrapped | reflexivity].
Qed.

(** ** Boards, [get] and [put] *)

Lemma index_range N x y : 0 ≤ index N x y < SIZE_MOD.
Proof. apply sz_add_range. Qed.

Lemma cells_range N : 0 ≤ cells N < SIZE_MOD.
Proof. apply sz_mul_range. Qed.

Lemma aget_Ok {A} (a : list A) k v :
  aget a k = Ok v ↔ a !! Z.to_nat k = Some v.
Proof. unfold aget. destruct (a !! Z.to_nat k); naive_solver. Qed.

Lemma aget_lt {A} (a : list A) k :
  (Z.to_nat k < length a)%nat → ∃ v, aget a k = Ok v ∧ a !! Z.to_nat k = Some v.
Proof.
  intros Hk. destruct (lookup_lt_is_Some_2 a _ Hk) as [v Hv].
  exists v. by rewrite aget_Ok.
Qed.

Lemma aset_lt {A} (a : list A) k v :
  (Z.to_nat k < length a)%nat → aset a k v = Ok (<[Z.to_nat k := v]> a).
Proof. intros Hk. unfold aset. by rewrite decide_True. Qed.

Lemma aset_ge {A} (a : list A) k v :
  (length a ≤ Z.to_nat k)%nat → aset a k v = OutOfBounds.
Proof. intros Hk. unfold aset. rewrite decide_False; [done | lia]. Qed.

Lemma aset_Ok {A} (a a' : list A) k v :
  aset a k v = Ok a' ↔ (Z.to_nat k < length a)%nat ∧ a' = <[Z.to_nat k := v]> a.
Proof.
  unfold aset. case_decide; split; try done.
  - intros [= <-]. done.
  - intros [_ ->]. done.
  - intros [? _]. done.
Qed.

Lemma get_outside (N : Z) (b : GenSudoku) (x y : Z) :
  cells N ≤ index N x y → get N b x y = Ok 0.
Proof. intros Hge. unfold get. by rewrite (proj2 (Z.leb_le _ _) Hge). Qed.

Lemma get_inside (N : Z) (b : GenSudoku) (x y : Z) :
  index N x y < cells N → get N b x y = aget (boardState b) (index N x y).
Proof. intros Hlt. unfold get. by rewrite (proj2 (Z.leb_gt _ _) Hlt). Qed.

(** C6.  On every board, [get] is total.  When the linear index
    [x * N + y] computed by the code is at least [N * N] the result is the
    empty-cell value [0]; otherwise it is the value stored at that linear
    index.  No coordinate pair makes [get] fail.  As long as the products
    and the sum fit [size_t], the linear index and the bound are the exact
    [x * N + y] and [N * N]. *)
Theorem get_total (N : Z) (b : GenSudoku) (x y : Z) :
  wf_board N b →
  (cells N ≤ index N x y → get N b x y = Ok 0) ∧
  (index N x y < cells N →
     ∃ v, boardState b !! Z.to_nat (index N x y) = Some v ∧
          get N b x y = Ok v) ∧
  (∃ v, get N b x y = Ok v) ∧
  (0 ≤ x → 0 ≤ y → 0 ≤ N → x * N + y < SIZE_MOD → index N x y = x * N + y) ∧
  (0 ≤ N * N < SIZE_MOD → cells N = N * N).
Proof.
  intros [Hwf _].
  pose proof (index_range N x y) as Hi. pose proof (cells_range N) as Hc.
  assert (Hhi : cells N ≤ index N x y → get N b x y = Ok 0)
    by apply get_outside.
  assert (Hlo : index N x y < cells N →
     ∃ v, boardState b !! Z.to_nat (index N x y) = Some v ∧ get N b x y = Ok v).
  { intros Hlt. rewrite get_inside by done.
    destruct (aget_lt (boardState b) (index N x y)) as (v & Hv & Hl); [lia|].
    by exists v. }
  split_and!; [done | done | | | ].
  - destruct (Z.le_gt_cases (cells N) (index N x y)) as [Hge|Hlt].
    + exists 0. auto.
    + destruct Hlo as (v & _ & Hv); [lia|]. by exists v.
  - intros Hx Hy HN Hfit. unfold index.
    rewrite (sz_mul_small x N) by nia. apply sz_add_small. nia.
  - intros Hfit. by apply sz_mul_small.
Qed.

(** C10.  [put] has no range check.  On every board, a write whose linear
    index is below [N * N] succeeds and keeps the array at its [N * N]
    cells; a write whose linear index is at least [N * N] falls outside the
    array and is an error, where [get] at the same coordinates answers
    [0]. *)
Theorem put_unchecked (N : Z) (b : GenSudoku) (x y val : Z) :
  wf_board N b →
  is_uint val →
  (index N x y < cells N →
     ∃ b', put N b x y val = Ok (b', b') ∧ wf_board N b') ∧
  (cells N ≤ index N x y →
     put N b x y val = OutOfBounds ∧ get N b x y = Ok 0).
Proof.
  intros Hwf Hval. pose proof (index_range N x y) as Hi.
  pose proof (cells_range N) as Hc. split.
  - intros Hlt. destruct Hwf as [Hlen Hty].
    unfold put. rewrite aset_lt by lia.
    eexists. split; [done|]. split; cbn.
    + by rewrite length_insert.
    + by apply Forall_insert.
  - intros Hge. split.
    + destruct Hwf as [Hlen Hty]. unfold put. by rewrite aset_ge by lia.
    + by apply get_outside.
Qed.

(** C2, as the code has it.  For a linear index inside the array, [put]
    writes the value into the receiver and returns a copy of the receiver:
    the returned board and the receiver after the call are the same board,
    which holds [val] at [(x, y)] and agrees with the receiver before the
    call at every other linear index. *)
Theorem put_writes_receiver (N : Z) (b : GenSudoku) (x y val : Z) :
  wf_board N b →
  is_uint val →
  index N x y < cells N →
  ∃ b', put N b x y val = Ok (b', b') ∧
        wf_board N b' ∧
        get N b' x y = Ok val ∧
        boardState b' !! Z.to_nat (index N x y) = Some val ∧
        ∀ k, k ≠ Z.to_nat (index N x y) →
             boardState b' !! k = boardState b !! k.
Proof.
  intros [Hwf Hty] Hval Hlt. pose proof (index_range N x y) as Hi.
  unfold wf_board. unfold put. rewrite aset_lt by lia.
  eexists. split; [done|]. cbn.
  assert (Hl : <[Z.to_nat (index N x y) := val]> (boardState b)
                 !! Z.to_nat (index N x y) = Some val)
    by (apply list_lookup_insert_eq; lia).
  split_and!.
  - by rewrite length_insert.
  - by apply Forall_insert.
  - unfold get. rewrite (proj2 (Z.leb_gt _ _) Hlt). cbn. by apply aget_Ok.
  - done.
  - intros k Hk. by apply list_lookup_insert_ne.
Qed.

(** ** [sectionValid] *)

Lemma occurs_twice_nil v : ¬ occurs_twice v [].
Proof. intros (i & j & _ & Hi & _). done. Qed.

Lemma occurs_twice_cons v c bs :
  occurs_twice v (c :: bs) ↔ (c = v ∧ v ∈ bs) ∨ occurs_twice v bs.
Proof.
  split.
  - intros (i & j & Hij & Hi & Hj).
    destruct j as [|j]; [lia|]. cbn in Hj.
    destruct i as [|i]; cbn in Hi.
    + left. split; [congruence|]. by eapply list_elem_of_lookup_2.
    + right. exists i, j. split_and!; [lia | done | done].
  - intros [[-> Hin] | (i & j & Hij & Hi & Hj)].
    + apply list_elem_of_lookup_1 in Hin as [k Hk].
      exists 0%nat, (S k). split_and!; [lia | done | done].
    + exists (S i), (S j). split_and!; [lia | done | done].
Qed.

Section sectionValid.

Variable N : Z.
Hypothesis HN : dimension N.

Lemma positions_length :
  length (replicate (Z.to_nat (sz_add N 1)) false) = S (Z.to_nat N).
Proof.
  rewrite length_replicate. unfold dimension in HN.
  rewrite sz_add_small by (rewrite SIZE_MOD_eq; lia). lia.
Qed.

Lemma sectionValid_loop_spec (bs : list Z) : ∀ positions : list bool,
  length positions = S (Z.to_nat N) →
  Forall (λ c, 0 ≤ c ≤ N) bs →
  ∃ r, sectionValid_loop positions bs = Ok r ∧
       (r = false ↔
        ∃ v, v ≠ 0 ∧ ((v ∈ bs ∧ positions !! Z.to_nat v = Some true) ∨
                      occurs_twice v bs)).
Proof.
  induction bs as [|c bs IH]; intros positions Hlen Hbs.
  - exists true. split; [done|]. split; [done|].
    intros (v & _ & [[Hin _] | Htw]).
    + by apply not_elem_of_nil in Hin.
    + by apply occurs_twice_nil in Htw.
  - apply Forall_cons_1 in Hbs as [Hc Hbs]. cbn [sectionValid_loop].
    destruct (Z.eqb_spec c 0) as [->|Hc0].
    + destruct (IH positions Hlen Hbs) as (r & Hr & Hiff).
      exists r. split; [done|]. rewrite Hiff.
      split; intros (v & Hv & H); exists v; (split; [done|]).
      * destruct H as [[Hin Hp] | Htw].
        -- left. split; [by apply elem_of_cons; right | done].
        -- right. apply occurs_twice_cons. by right.
      * destruct H as [[Hin Hp] | Htw].
        -- left. apply elem_of_cons in Hin as [->|Hin]; done.
        -- apply occurs_twice_cons in Htw as [[Hv0 _] | Htw]; [|by right].
           by destruct Hv.
    + destruct (aget_lt positions c) as (seen & Hget & Hseen); [lia|].
      rewrite Hget. cbn [bind]. destruct seen.
      * exists false. split; [done|]. split; [|done]. intros _.
        exists c. split; [done|]. left. split; [|done].
        apply elem_of_cons. by left.
      * rewrite aset_lt by lia. cbn [bind].
        destruct (IH (<[Z.to_nat c := true]> positions)) as (r & Hr & Hiff);
          [by rewrite length_insert | done |].
        exists r. split; [done|]. rewrite Hiff.
        split; intros (v & Hv & H); exists v; (split; [done|]).
        -- destruct H as [[Hin Hp] | Htw].
           ++ destruct (decide (v = c)) as [->|Hvc].
              ** right. apply occurs_twice_cons. by left.
              ** left. split; [by apply elem_of_cons; right|].
                 rewrite list_lookup_insert_ne in Hp; [done|].
                 rewrite list.Forall_forall in Hbs. specialize (Hbs v Hin). lia.
           ++ right. apply occurs_twice_cons. by right.
        -- destruct H as [[Hin Hp] | Htw].
           ++ left. apply elem_of_cons in Hin as [->|Hin]; [congruence|].
              split; [done|].
              destruct (decide (v = c)) as [->|Hvc].
              ** apply list_lookup_insert_eq. lia.
              ** rewrite list_lookup_insert_ne; [done|].
                 rewrite list.Forall_forall in Hbs. specialize (Hbs v Hin). lia.
           ++ apply occurs_twice_cons in Htw as [[-> Hin] | Htw].
              ** left. split; [done|]. apply list_lookup_insert_eq. lia.
              ** by right.
Qed.

Lemma sectionValid_loop_skip_zero (bs : list Z) : ∀ positions,
  sectionValid_loop positions (filter (λ c, c ≠ 0) bs)
  = sectionValid_loop positions bs.
Proof.
  induction bs as [|c bs IH]; intros positions; [done|].
  cbn [sectionValid_loop]. destruct (Z.eqb_spec c 0) as [->|Hc0].
  - rewrite filter_cons_False by (intros H; by apply H). apply IH.
  - rewrite filter_cons_True by done. cbn [sectionValid_loop].
    rewrite (proj2 (Z.eqb_neq _ _) Hc0).
    destruct (aget positions c) as [[]| |]; cbn [bind]; try done.
    destruct (aset positions c true); cbn [bind]; try done.
Qed.

Lemma sectionValid_Ok (bs : list Z) :
  Forall (λ c, 0 ≤ c ≤ N) bs →
  ∃ r, sectionValid N bs = Ok r ∧
       (r = false ↔ ∃ v, v ≠ 0 ∧ occurs_twice v bs).
Proof.
  intros Hbs. unfold sectionValid.
  destruct (sectionValid_loop_spec bs _ positions_length Hbs)
    as (r & Hr & Hiff).
  exists r. split; [done|]. rewrite Hiff.
  split; intros (v & Hv & H); exists v; (split; [done|]); [|by right].
  destruct H as [[_ Hp] | Htw]; [|done].
  apply lookup_replicate in Hp as [? _]. done.
Qed.

End sectionValid.

(** C4.  For a section whose entries lie in [0, N], [sectionValid] answers
    (it does not leave the presence table), the answer is [false] exactly
    when some non-zero value stands at two places of the section, and
    [true] exactly when none does.  Zero entries play no part: the answer
    is the one for the section with its zero entries removed. *)
Theorem sectionValid_spec (N : Z) (bs : list Z) :
  dimension N →
  Forall (λ c, 0 ≤ c ≤ N) bs →
  (sectionValid N bs = Ok false ↔ ∃ v, v ≠ 0 ∧ occurs_twice v bs) ∧
  (sectionValid N bs = Ok true ↔ ¬ ∃ v, v ≠ 0 ∧ occurs_twice v bs) ∧
  sectionValid N bs = sectionValid N (filter (λ c, c ≠ 0) bs).
Proof.
  intros HN Hbs.
  destruct (sectionValid_Ok N HN bs Hbs) as (r & Hr & Hiff).
  rewrite Hr. split_and!.
  - rewrite <- Hiff. split; congruence.
  - rewrite <- Hiff. by destruct r.
  - rewrite <- Hr. unfold sectionValid.
    by rewrite sectionValid_loop_skip_zero.
Qed.

(** ** The result monad and the loops *)

Lemma bind_Ok {A B} (m : result A) (k : A → result B) (b : B) :
  bind m k = Ok b ↔ ∃ a, m = Ok a ∧ k a = Ok b.
Proof.
  destruct m as [a| |]; cbn; split; try done.
  - intros H. by exists a.
  - by intros (a' & [= <-] & H).
  - by intros (a' & [=] & _).
  - by intros (a' & [=] & _).
Qed.

Lemma range_elem (n k : Z) : k ∈ range n ↔ 0 ≤ k < n.
Proof. unfold range. rewrite elem_of_seqZ. lia. Qed.

Lemma seqZ_step (m n : Z) : 0 < n → seqZ m n = m :: seqZ (m + 1) (n - 1).
Proof. intros Hn. by rewrite seqZ_cons. Qed.

Lemma allM_true (p : Z → result bool) (ks : list Z) :
  allM p ks = Ok true ↔ ∀ k, k ∈ ks → p k = Ok true.
Proof.
  induction ks as [|k ks IH]; cbn [allM].
  - split; [|done]. intros _ k Hk. by apply not_elem_of_nil in Hk.
  - split.
    + intros H. apply bind_Ok in H as (v & Hv & H).
      destruct v; [|done]. intros k' Hk'.
      apply elem_of_cons in Hk' as [->|Hk']; [done|].
      by apply IH.
    + intros H. rewrite (H k) by (apply elem_of_cons; by left). cbn.
      apply IH. intros k' Hk'. apply H, elem_of_cons. by right.
Qed.

Lemma allM_Ok (p : Z → result bool) (ks : list Z) :
  (∀ k, k ∈ ks → ∃ v, p k = Ok v) → ∃ r, allM p ks = Ok r.
Proof.
  induction ks as [|k ks IH]; intros H; cbn [allM]; [by exists true|].
  destruct (H k) as [v Hv]; [apply elem_of_cons; by left|].
  rewrite Hv. cbn. destruct v; [|by exists false].
  apply IH. intros k' Hk'. apply H, elem_of_cons. by right.
Qed.

Lemma firstM_range {A} (f : Z → result (option A)) (n : nat) : ∀ m o,
  firstM f (seqZ m (Z.of_nat n)) = Ok o →
  match o with
  | Some a => ∃ k, m ≤ k < m + Z.of_nat n ∧ f k = Ok (Some a) ∧
                   ∀ k', m ≤ k' < k → f k' = Ok None
  | None => ∀ k, m ≤ k < m + Z.of_nat n → f k = Ok None
  end.
Proof.
  induction n as [|n IH]; intros m o.
  - cbn. intros [= <-]. intros k Hk. lia.
  - rewrite seqZ_step by lia. cbn [firstM].
    replace (Z.of_nat (S n) - 1) with (Z.of_nat n) by lia.
    intros H. apply bind_Ok in H as (o' & Ho' & H).
    destruct o' as [a|].
    + injection H as <-. exists m. split; [lia|]. split; [done|].
      intros k' Hk'. lia.
    + specialize (IH (m + 1) o H). destruct o as [a|].
      * destruct IH as (k & Hk & Hfk & Hbefore). exists k.
        split; [lia|]. split; [done|]. intros k' Hk'.
        destruct (decide (k' = m)) as [->|Hne]; [done|].
        apply Hbefore. lia.
      * intros k Hk. destruct (decide (k = m)) as [->|Hne]; [done|].
        apply IH. lia.
Qed.

Lemma firstM_None {A} (f : Z → result (option A)) (ks : list Z) :
  (∀ k, k ∈ ks → f k = Ok None) → firstM f ks = Ok None.
Proof.
  induction ks as [|k ks IH]; intros H; cbn [firstM]; [done|].
  rewrite (H k) by (apply elem_of_cons; by left). cbn.
  apply IH. intros k' Hk'. apply H, elem_of_cons. by right.
Qed.

Lemma firstM_Ok {A} (f : Z → result (option A)) (ks : list Z) :
  (∀ k, k ∈ ks → ∃ o, f k = Ok o) → ∃ o, firstM f ks = Ok o.
Proof.
  induction ks as [|k ks IH]; intros H; cbn [firstM]; [by exists None|].
  destruct (H k) as [o Ho]; [apply elem_of_cons; by left|].
  rewrite Ho. cbn. destruct o as [a|]; [by exists (Some a)|].
  apply IH. intros k' Hk'. apply H, elem_of_cons. by right.
Qed.

(** The loop rule for [foldM] over an index range: an invariant indexed by
    the loop counter. *)
Lemma foldM_range_inv {St} (I : Z → St → Prop) (body : Z → St → result St)
    (n : nat) : ∀ m s,
  I m s →
  (∀ k s, m ≤ k < m + Z.of_nat n → I k s →
          ∃ s', body k s = Ok s' ∧ I (k + 1) s') →
  ∃ r, foldM body (seqZ m (Z.of_nat n)) s = Ok r ∧ I (m + Z.of_nat n) r.
Proof.
  induction n as [|n IH]; intros m s Hs Hbody.
  - cbn. exists s. split; [done|]. by rewrite Z.add_0_r.
  - rewrite seqZ_step by lia. cbn [foldM].
    replace (Z.of_nat (S n) - 1) with (Z.of_nat n) by lia.
    destruct (Hbody m s) as (s' & Hs' & HI); [lia | done |].
    rewrite Hs'. cbn [bind].
    destruct (IH (m + 1) s' HI) as (r & Hr & HIr).
    { intros k s0 Hk. apply Hbody. lia. }
    exists r. split; [done|].
    by replace (m + Z.of_nat (S n)) with (m + 1 + Z.of_nat n) by lia.
Qed.

(** Two runs of a loop over the same indices, on related states. *)
Lemma foldM_rel {S1 S2} (R : S1 → S2 → Prop)
    (body1 : Z → S1 → result S1) (body2 : Z → S2 → result S2)
    (ks : list Z) : ∀ s1 s2 r2,
  R s1 s2 →
  (∀ k s1 s2 s2', k ∈ ks → R s1 s2 → body2 k s2 = Ok s2' →
                  ∃ s1', body1 k s1 = Ok s1' ∧ R s1' s2') →
  foldM body2 ks s2 = Ok r2 →
  ∃ r1, foldM body1 ks s1 = Ok r1 ∧ R r1 r2.
Proof.
  induction ks as [|k ks IH]; intros s1 s2 r2 HR Hbody; cbn [foldM].
  - intros [= <-]. by exists s1.
  - intros H. apply bind_Ok in H as (s2' & Hs2' & H).
    destruct (Hbody k s1 s2 s2') as (s1' & Hs1' & HR');
      [apply elem_of_cons; by left | done | done |].
    rewrite Hs1'. cbn [bind]. apply (IH s1' s2' r2); [done | | done].
    intros k' t1 t2 t2' Hk'. apply Hbody, elem_of_cons. by right.
Qed.

(** ** Index arithmetic of a board *)

Lemma clue_refl (l : list Z) : Forall2 clue l l.
Proof. induction l; constructor; done. Qed.

Lemma keeps_clues_refl (b : GenSudoku) : keeps_clues b b.
Proof. apply clue_refl. Qed.

Lemma keeps_clues_trans (a b c : GenSudoku) :
  keeps_clues a b → keeps_clues b c → keeps_clues a c.
Proof.
  unfold keeps_clues. intros Hab Hbc.
  eapply Forall2_trans; [| exact Hab | exact Hbc].
  unfold clue. intros x y z Hxy Hyz Hx.
  rewrite Hyz; rewrite Hxy; done.
Qed.

Section Board.

Variable N : Z.
Hypothesis HN : dimension N.

Lemma dimension_bound : 0 ≤ N < 2147483648.
Proof. exact HN. Qed.

Lemma cells_eq : cells N = N * N.
Proof.
  pose proof dimension_bound. unfold cells.
  apply sz_mul_small. rewrite SIZE_MOD_eq. nia.
Qed.

Lemma index_eq (x y : Z) :
  0 ≤ x < N → 0 ≤ y < N → index N x y = x * N + y.
Proof.
  pose proof dimension_bound. intros Hx Hy. unfold index.
  rewrite (sz_mul_small x N) by (rewrite SIZE_MOD_eq; nia).
  apply sz_add_small. rewrite SIZE_MOD_eq. nia.
Qed.

Lemma index_lt (x y : Z) :
  0 ≤ x < N → 0 ≤ y < N → 0 ≤ x * N + y < N * N.
Proof. intros Hx Hy. nia. Qed.

Lemma side_cases :
  side N = 0 ∨ (0 < side N ∧ side N * side N = N).
Proof.
  pose proof dimension_bound. unfold side.
  destruct (isqrt_no_wrap N) as [[Hs Hsq] | [Hs _]]; [lia | | by left].
  right. split; [nia | done].
Qed.

(** The two index expressions of [quadrant]. *)
Lemma quadrant_source (x y i j : Z) :
  0 ≤ x < side N → 0 ≤ y < side N → 0 ≤ i < side N → 0 ≤ j < side N →
  0 ≤ sz_add (sz_mul (side N) (index N x y)) (sz_add (sz_mul i N) j) < N * N.
Proof.
  pose proof dimension_bound as HNb. intros Hx Hy Hi Hj.
  destruct side_cases as [Hs | [Hs Hsq]]; [lia|].
  set (s := side N) in *.
  assert (Hs1 : s ≤ N) by nia.
  assert (Hmul : ∀ a, 0 ≤ a < s → 0 ≤ a * s ∧ a * s + s ≤ N).
  { intros a Ha. nia. }
  assert (HmulN : ∀ a, 0 ≤ a < N → 0 ≤ a * N ∧ a * N + N ≤ N * N).
  { intros a Ha. nia. }
  assert (Hxi : 0 ≤ x * s + i < N) by (specialize (Hmul x Hx); lia).
  assert (Hyj : 0 ≤ y * s + j < N) by (specialize (Hmul y Hy); lia).
  assert (Hcell : 0 ≤ (x * s + i) * N + (y * s + j) < N * N)
    by (specialize (HmulN (x * s + i) Hxi); lia).
  assert (HiN : 0 ≤ i * N + j < N * N)
    by (specialize (HmulN i ltac:(lia)); lia).
  assert (Hxy : 0 ≤ x * N + y < N * N)
    by (specialize (HmulN x ltac:(lia)); lia).
  assert (HNN : N * N < 4611686018427387904) by nia.
  assert (Heq : s * (x * N + y) + (i * N + j)
                = (x * s + i) * N + (y * s + j)) by ring.
  assert (Hsxy : 0 ≤ s * (x * N + y)).
  { apply Z.mul_nonneg_nonneg; lia. }
  rewrite index_eq by lia.
  rewrite (sz_mul_small s) by (rewrite SIZE_MOD_eq; lia).
  rewrite (sz_mul_small i N) by (rewrite SIZE_MOD_eq; lia).
  rewrite (sz_add_small (i * N)) by (rewrite SIZE_MOD_eq; lia).
  rewrite sz_add_small by (rewrite SIZE_MOD_eq; lia).
  lia.
Qed.

Lemma quadrant_target (i j : Z) :
  0 ≤ i < side N → 0 ≤ j < side N →
  0 ≤ sz_add (sz_mul i (side N)) j < N.
Proof.
  pose proof dimension_bound as HNb. intros Hi Hj.
  destruct side_cases as [Hs | [Hs Hsq]]; [lia|].
  set (s := side N) in *.
  assert (0 ≤ i * s + j < N) by nia.
  rewrite (sz_mul_small i) by (rewrite SIZE_MOD_eq; nia).
  rewrite sz_add_small by (rewrite SIZE_MOD_eq; lia).
  lia.
Qed.


(** ** Extraction of rows, columns and quadrants *)

(** One step [bs[k2] = board[k1]] of an extraction loop. *)
Lemma extract_step (board bs : list Z) (k1 k2 : Z) :
  (Z.to_nat k1 < length board)%nat →
  (Z.to_nat k2 < length bs)%nat →
  ∃ v, board !! Z.to_nat k1 = Some v ∧
       (let* v := aget board k1 in aset bs k2 v)
       = Ok (<[Z.to_nat k2 := v]> bs).
Proof.
  intros H1 H2. destruct (aget_lt board k1 H1) as (v & Hv & Hl).
  exists v. split; [done|]. rewrite Hv. cbn [bind]. by apply aset_lt.
Qed.

Lemma empty_section_of (b : GenSudoku) : section_of N b (empty_section N).
Proof.
  split; [apply length_replicate|].
  intros P HP _. by apply Forall_replicate.
Qed.

Lemma section_of_insert (b : GenSudoku) (bs : list Z) (k : nat) (v : Z) (i : nat) :
  section_of N b bs → boardState b !! i = Some v →
  section_of N b (<[k := v]> bs).
Proof.
  intros [Hlen HP] Hv. split; [by rewrite length_insert|].
  intros P HP0 Hb. apply Forall_insert; [by apply HP|].
  rewrite list.Forall_forall in Hb. apply Hb.
  by eapply list_elem_of_lookup_2.
Qed.

Lemma row_spec (b : GenSudoku) (x : Z) :
  wf_board N b → 0 ≤ x < N →
  ∃ bs, row N b x = Ok bs ∧ section_of N b bs ∧
        ∀ y, 0 ≤ y < N →
             bs !! Z.to_nat y = boardState b !! Z.to_nat (x * N + y).
Proof.
  intros [Hlen _] Hx. pose proof dimension_bound as HNb.
  rewrite cells_eq in Hlen. unfold row, range.
  destruct (foldM_range_inv
    (λ k bs, section_of N b bs ∧
             ∀ y, 0 ≤ y < k →
                  bs !! Z.to_nat y = boardState b !! Z.to_nat (x * N + y))
    (λ y bs, let* v := aget (boardState b) (index N x y) in aset bs y v)
    (Z.to_nat N) 0 (empty_section N)) as (bs & Hbs & Hsec & Hrow).
  - split; [apply empty_section_of | intros y Hy; lia].
  - intros k bs Hk [Hsec Hrow]. rewrite index_eq by lia.
    pose proof (index_lt x k) as Hlt.
    destruct (extract_step (boardState b) bs (x * N + k) k) as (v & Hv & ->);
      [lia | destruct Hsec; lia |].
    eexists. split; [done|]. split; [by eapply section_of_insert|].
    intros y Hy. destruct (decide (y = k)) as [->|Hne].
    + rewrite list_lookup_insert_eq by (destruct Hsec; lia). done.
    + rewrite list_lookup_insert_ne by lia. apply Hrow. lia.
  - rewrite Z2Nat.id in Hbs by lia. exists bs. split; [done|].
    split; [done|]. intros y Hy. apply Hrow. lia.
Qed.

Lemma col_spec (b : GenSudoku) (y : Z) :
  wf_board N b → 0 ≤ y < N →
  ∃ bs, col N b y = Ok bs ∧ section_of N b bs.
Proof.
  intros [Hlen _] Hy. pose proof dimension_bound as HNb.
  rewrite cells_eq in Hlen. unfold col, range.
  destruct (foldM_range_inv
    (λ _ bs, section_of N b bs)
    (λ x bs, let* v := aget (boardState b) (index N x y) in aset bs x v)
    (Z.to_nat N) 0 (empty_section N)) as (bs & Hbs & Hsec).
  - apply empty_section_of.
  - intros k bs Hk Hsec. rewrite index_eq by lia.
    pose proof (index_lt k y) as Hlt.
    destruct (extract_step (boardState b) bs (k * N + y) k) as (v & Hv & ->);
      [lia | destruct Hsec; lia |].
    eexists. split; [done|]. by eapply section_of_insert.
  - rewrite Z2Nat.id in Hbs by lia. by exists bs.
Qed.

Lemma quadrant_spec (b : GenSudoku) (x y : Z) :
  wf_board N b → 0 ≤ x < side N → 0 ≤ y < side N →
  ∃ bs, quadrant N b x y = Ok bs ∧ section_of N b bs.
Proof.
  intros [Hlen _] Hx Hy. pose proof dimension_bound as HNb.
  rewrite cells_eq in Hlen. unfold quadrant, range.
  set (inner := λ i j (bs : list Z),
         let* v := aget (boardState b)
                     (sz_add (sz_mul (side N) (index N x y))
                             (sz_add (sz_mul i N) j)) in
         aset bs (sz_add (sz_mul i (side N)) j) v).
  destruct (foldM_range_inv
    (λ _ bs, section_of N b bs)
    (λ i bs, foldM (inner i) (seqZ 0 (side N)) bs)
    (Z.to_nat (side N)) 0 (empty_section N)) as (bs & Hbs & Hsec).
  - apply empty_section_of.
  - intros i bs Hi Hsec.
    destruct (foldM_range_inv (λ _ bs, section_of N b bs) (inner i)
                (Z.to_nat (side N)) 0 bs Hsec) as (bs' & Hbs' & Hsec').
    + intros j bs0 Hj Hsec0. unfold inner.
      pose proof (quadrant_source x y i j) as Hsrc.
      pose proof (quadrant_target i j) as Htgt.
      destruct (extract_step (boardState b) bs0
                  (sz_add (sz_mul (side N) (index N x y))
                          (sz_add (sz_mul i N) j))
                  (sz_add (sz_mul i (side N)) j)) as (v & Hv & ->);
        [lia | destruct Hsec0; lia |].
      eexists. split; [done|]. by eapply section_of_insert.
    + rewrite Z2Nat.id in Hbs' by lia. by exists bs'.
  - rewrite Z2Nat.id in Hbs by lia. by exists bs.
Qed.

(** ** Sections of a board and of a board that keeps its clues *)

Lemma extract_step_rel (board1 board2 bs1 bs2 bs2' : list Z) (k1 k2 : Z) :
  Forall2 clue board1 board2 → Forall2 clue bs1 bs2 →
  (let* v := aget board2 k1 in aset bs2 k2 v) = Ok bs2' →
  ∃ bs1', (let* v := aget board1 k1 in aset bs1 k2 v) = Ok bs1' ∧
          Forall2 clue bs1' bs2'.
Proof.
  intros Hboard Hbs H. apply bind_Ok in H as (d & Hd & H).
  apply aget_Ok in Hd. apply aset_Ok in H as [Hk2 ->].
  destruct (Forall2_lookup_r _ _ _ _ _ Hboard Hd) as (c & Hc & Hcd).
  apply aget_Ok in Hc. rewrite Hc. cbn [bind].
  apply Forall2_length in Hbs as Hlen.
  rewrite aset_lt by lia.
  eexists. split; [done|]. by apply Forall2_insert.
Qed.

Lemma row_rel (b s : GenSudoku) (x : Z) (bs2 : list Z) :
  keeps_clues b s → row N s x = Ok bs2 →
  ∃ bs1, row N b x = Ok bs1 ∧ Forall2 clue bs1 bs2.
Proof.
  intros Hbs. unfold row. apply foldM_rel; [apply clue_refl|].
  intros k s1 s2 s2' _. by apply extract_step_rel.
Qed.

Lemma col_rel (b s : GenSudoku) (y : Z) (bs2 : list Z) :
  keeps_clues b s → col N s y = Ok bs2 →
  ∃ bs1, col N b y = Ok bs1 ∧ Forall2 clue bs1 bs2.
Proof.
  intros Hbs. unfold col. apply foldM_rel; [apply clue_refl|].
  intros k s1 s2 s2' _. by apply extract_step_rel.
Qed.

Lemma quadrant_rel (b s : GenSudoku) (x y : Z) (bs2 : list Z) :
  keeps_clues b s → quadrant N s x y = Ok bs2 →
  ∃ bs1, quadrant N b x y = Ok bs1 ∧ Forall2 clue bs1 bs2.
Proof.
  intros Hbs. unfold quadrant. apply foldM_rel; [apply clue_refl|].
  intros i s1 s2 s2' _ Hs. apply foldM_rel; [done|].
  intros j t1 t2 t2' _. by apply extract_step_rel.
Qed.

(** Emptying entries of a valid section leaves it valid. *)
Lemma sectionValid_loop_mono (bs1 bs2 : list Z) :
  Forall2 clue bs1 bs2 →
  ∀ pos1 pos2 : list bool,
    length pos1 = length pos2 →
    (∀ k, pos1 !! k = Some true → pos2 !! k = Some true) →
    sectionValid_loop pos2 bs2 = Ok true →
    sectionValid_loop pos1 bs1 = Ok true.
Proof.
  induction 1 as [|c d bs1 bs2 Hcd Hbs IH]; intros pos1 pos2 Hlen Hsub;
    [done|].
  cbn [sectionValid_loop].
  destruct (Z.eqb_spec c 0) as [->|Hc0].
  - destruct (Z.eqb_spec d 0) as [->|Hd0]; [by apply IH|].
    intros H. apply bind_Ok in H as (seen & Hseen & H).
    destruct seen; [done|].
    apply bind_Ok in H as (pos2' & Hpos2' & H).
    apply aset_Ok in Hpos2' as [Hd ->].
    apply (IH pos1 (<[Z.to_nat d := true]> pos2)); [| | done].
    + by rewrite length_insert.
    + intros k Hk. destruct (decide (k = Z.to_nat d)) as [->|Hne].
      * by apply list_lookup_insert_eq.
      * rewrite list_lookup_insert_ne by done. by apply Hsub.
  - rewrite (Hcd Hc0). rewrite (proj2 (Z.eqb_neq _ _) Hc0).
    intros H. apply bind_Ok in H as (seen & Hseen & H).
    destruct seen; [done|]. apply aget_Ok in Hseen.
    apply bind_Ok in H as (pos2' & Hpos2' & H).
    apply aset_Ok in Hpos2' as [Hc ->].
    destruct (aget_lt pos1 c) as (seen1 & Hget1 & Hseen1); [lia|].
    rewrite Hget1. cbn [bind]. destruct seen1.
    { apply Hsub in Hseen1. congruence. }
    rewrite aset_lt by lia. cbn [bind].
    apply (IH _ (<[Z.to_nat c := true]> pos2)); [| | done].
    + by rewrite !length_insert.
    + intros k Hk. destruct (decide (k = Z.to_nat c)) as [->|Hne].
      * by apply list_lookup_insert_eq.
      * rewrite list_lookup_insert_ne in Hk by done.
        rewrite list_lookup_insert_ne by done. by apply Hsub.
Qed.

Lemma sectionValid_mono (bs1 bs2 : list Z) :
  Forall2 clue bs1 bs2 →
  sectionValid N bs2 = Ok true → sectionValid N bs1 = Ok true.
Proof.
  intros Hbs. unfold sectionValid.
  by apply (sectionValid_loop_mono bs1 bs2 Hbs).
Qed.

(** ** [isValid] *)

Lemma isValid_true (b : GenSudoku) :
  isValid N b = Ok true ↔
  (∀ x, 0 ≤ x < N → rowValid N b x = Ok true) ∧
  (∀ y, 0 ≤ y < N → colValid N b y = Ok true) ∧
  (∀ x y, 0 ≤ x < side N → 0 ≤ y < side N →
          quadrantValid N b x y = Ok true).
Proof.
  unfold isValid. split.
  - intros H. apply bind_Ok in H as (r & Hr & H). destruct r; [|done].
    cbn [negb] in H. apply bind_Ok in H as (c & Hc & H).
    destruct c; [|done]. cbn [negb] in H.
    rewrite allM_true in Hr. rewrite allM_true in Hc.
    rewrite allM_true in H. split_and!.
    + intros x Hx. by apply Hr, range_elem.
    + intros y Hy. by apply Hc, range_elem.
    + intros x y Hx Hy. apply range_elem in Hx. specialize (H x Hx).
      rewrite allM_true in H. by apply H, range_elem.
  - intros (Hr & Hc & Hq).
    rewrite (proj2 (allM_true _ _)); cbn [bind negb].
    2:{ intros x Hx. by apply Hr, range_elem. }
    rewrite (proj2 (allM_true _ _)); cbn [bind negb].
    2:{ intros y Hy. by apply Hc, range_elem. }
    apply allM_true. intros x Hx. apply allM_true. intros y Hy.
    apply Hq; by apply range_elem.
Qed.

Lemma isValid_mono (b s : GenSudoku) :
  keeps_clues b s → isValid N s = Ok true → isValid N b = Ok true.
Proof.
  intros Hbs. rewrite !isValid_true. intros (Hr & Hc & Hq). split_and!.
  - intros x Hx. specialize (Hr x Hx). unfold rowValid in *.
    apply bind_Ok in Hr as (bs2 & Hbs2 & Hv).
    destruct (row_rel b s x bs2 Hbs Hbs2) as (bs1 & -> & Hrel). cbn [bind].
    by eapply sectionValid_mono.
  - intros y Hy. specialize (Hc y Hy). unfold colValid in *.
    apply bind_Ok in Hc as (bs2 & Hbs2 & Hv).
    destruct (col_rel b s y bs2 Hbs Hbs2) as (bs1 & -> & Hrel). cbn [bind].
    by eapply sectionValid_mono.
  - intros x y Hx Hy. specialize (Hq x y Hx Hy). unfold quadrantValid in *.
    apply bind_Ok in Hq as (bs2 & Hbs2 & Hv).
    destruct (quadrant_rel b s x y bs2 Hbs Hbs2) as (bs1 & -> & Hrel).
    cbn [bind]. by eapply sectionValid_mono.
Qed.

Lemma section_of_valid_Ok (b : GenSudoku) (bs : list Z) :
  in_range N b → section_of N b bs → ∃ v, sectionValid N bs = Ok v.
Proof.
  intros Hb [_ HP]. pose proof dimension_bound.
  destruct (sectionValid_Ok N HN bs) as (v & Hv & _); [|by exists v].
  apply (HP (λ c, 0 ≤ c ≤ N)); [lia | done].
Qed.

Lemma isValid_Ok (b : GenSudoku) :
  wf_board N b → in_range N b → ∃ v, isValid N b = Ok v.
Proof.
  intros Hwf Hb. unfold isValid.
  destruct (allM_Ok (rowValid N b) (range N)) as [r ->].
  { intros x Hx%range_elem. unfold rowValid.
    destruct (row_spec b x Hwf Hx) as (bs & -> & Hsec & _). cbn [bind].
    by eapply section_of_valid_Ok. }
  cbn [bind]. destruct r; cbn [negb]; [|by exists false].
  destruct (allM_Ok (colValid N b) (range N)) as [c ->].
  { intros y Hy%range_elem. unfold colValid.
    destruct (col_spec b y Hwf Hy) as (bs & -> & Hsec). cbn [bind].
    by eapply section_of_valid_Ok. }
  cbn [bind]. destruct c; cbn [negb]; [|by exists false].
  apply allM_Ok. intros x Hx%range_elem. apply allM_Ok.
  intros y Hy%range_elem. unfold quadrantValid.
  destruct (quadrant_spec b x y Hwf Hx Hy) as (bs & -> & Hsec). cbn [bind].
  by eapply section_of_valid_Ok.
Qed.

Lemma sectionValid_loop_bound (bs : list Z) : ∀ positions : list bool,
  sectionValid_loop positions bs = Ok true →
  Forall (λ c, c = 0 ∨ (Z.to_nat c < length positions)%nat) bs.
Proof.
  induction bs as [|c bs IH]; intros positions; [by constructor|].
  cbn [sectionValid_loop]. destruct (Z.eqb_spec c 0) as [->|Hc0].
  - intros H. constructor; [by left | by apply IH].
  - intros H. apply bind_Ok in H as (seen & Hseen & H).
    destruct seen; [done|].
    apply bind_Ok in H as (positions' & Hset & H).
    apply aset_Ok in Hset as [Hc ->]. constructor; [by right|].
    apply IH in H. by rewrite length_insert in H.
Qed.

(** A valid board holds digits only. *)
Lemma isValid_in_range (b : GenSudoku) :
  wf_board N b → isValid N b = Ok true → in_range N b.
Proof.
  intros Hwf Hv. pose proof dimension_bound as HNb.
  apply isValid_true in Hv as (Hr & _ & _).
  unfold in_range. apply Forall_lookup. intros k c Hk.
  pose proof Hwf as [Hlen Hty]. rewrite cells_eq in Hlen.
  assert (Hklt : (k < length (boardState b))%nat)
    by (by eapply lookup_lt_Some).
  assert (HN0 : 0 < N) by nia.
  assert (Hc0 : 0 ≤ c).
  { rewrite list.Forall_forall in Hty.
    apply (Hty c). by eapply list_elem_of_lookup_2. }
  set (x := Z.of_nat k / N). set (y := Z.of_nat k mod N).
  assert (Hxy : Z.of_nat k = x * N + y)
    by (unfold x, y; rewrite Z.mul_comm; apply Z.div_mod; lia).
  assert (Hy : 0 ≤ y < N) by (apply Z.mod_pos_bound; lia).
  assert (Hx : 0 ≤ x < N).
  { split; [apply Z.div_pos; lia|]. apply Z.div_lt_upper_bound; lia. }
  specialize (Hr x Hx). unfold rowValid in Hr.
  apply bind_Ok in Hr as (bs & Hbs & Hsv).
  destruct (row_spec b x Hwf Hx) as (bs' & Hbs' & _ & Hrow).
  rewrite Hbs in Hbs'. injection Hbs' as <-.
  specialize (Hrow y Hy). rewrite <- Hxy, Nat2Z.id, Hk in Hrow.
  unfold sectionValid in Hsv. apply sectionValid_loop_bound in Hsv.
  rewrite list.Forall_forall in Hsv.
  destruct (Hsv c) as [-> | Hb]; [by eapply list_elem_of_lookup_2 | lia |].
  rewrite positions_length in Hb by done. lia.
Qed.

(** ** [isComplete] and [next] *)

Lemma get_cell (b : GenSudoku) (x y : Z) :
  wf_board N b → 0 ≤ x < N → 0 ≤ y < N →
  ∃ c, boardState b !! Z.to_nat (x * N + y) = Some c ∧ get N b x y = Ok c.
Proof.
  intros [Hlen _] Hx Hy. rewrite cells_eq in Hlen.
  pose proof (index_lt x y Hx Hy) as Hlt.
  rewrite get_inside by (rewrite cells_eq, index_eq by done; lia).
  rewrite index_eq by done.
  destruct (aget_lt (boardState b) (x * N + y)) as (c & Hc & Hl); [lia|].
  by exists c.
Qed.

(** Linear indices and coordinates. *)
Lemma coordinates (k : nat) :
  (k < Z.to_nat (N * N))%nat →
  ∃ x y, 0 ≤ x < N ∧ 0 ≤ y < N ∧ Z.of_nat k = x * N + y.
Proof.
  intros Hk. pose proof dimension_bound as HNb.
  assert (HN0 : 0 < N) by nia.
  exists (Z.of_nat k / N), (Z.of_nat k mod N). split_and!.
  - apply Z.div_pos; lia.
  - apply Z.div_lt_upper_bound; lia.
  - apply Z.mod_pos_bound; lia.
  - apply Z.mod_pos_bound; lia.
  - rewrite Z.mul_comm. apply Z.div_mod. lia.
Qed.

Lemma isComplete_true (b : GenSudoku) :
  isComplete N b = Ok true ↔
  ∀ x y, 0 ≤ x < N → 0 ≤ y < N → ∃ v, get N b x y = Ok v ∧ v ≠ 0.
Proof.
  unfold isComplete. rewrite allM_true. split.
  - intros H x y Hx Hy. apply range_elem in Hx. specialize (H x Hx).
    rewrite allM_true in H. apply range_elem in Hy. specialize (H y Hy).
    apply bind_Ok in H as (v & Hv & H). exists v. split; [done|].
    injection H as H. apply negb_true_iff in H. by apply Z.eqb_neq.
  - intros H x Hx%range_elem. apply allM_true. intros y Hy%range_elem.
    destruct (H x y Hx Hy) as (v & -> & Hv). cbn [bind].
    by rewrite (proj2 (Z.eqb_neq _ _) Hv).
Qed.

Lemma isComplete_Ok (b : GenSudoku) :
  wf_board N b → ∃ v, isComplete N b = Ok v.
Proof.
  intros Hwf. unfold isComplete. apply allM_Ok. intros x Hx%range_elem.
  apply allM_Ok. intros y Hy%range_elem.
  destruct (get_cell b x y Hwf Hx Hy) as (c & _ & ->). cbn [bind]. eauto.
Qed.

Lemma isComplete_cells (b : GenSudoku) :
  wf_board N b →
  (isComplete N b = Ok true ↔ Forall (λ c, c ≠ 0) (boardState b)).
Proof.
  intros Hwf. rewrite isComplete_true, Forall_lookup. split.
  - intros H k c Hk. pose proof Hwf as [Hlen _]. rewrite cells_eq in Hlen.
    destruct (coordinates k) as (x & y & Hx & Hy & Hxy).
    { rewrite <- Hlen. by eapply lookup_lt_Some. }
    destruct (H x y Hx Hy) as (v & Hv & Hv0).
    destruct (get_cell b x y Hwf Hx Hy) as (c' & Hc' & Hget).
    rewrite <- Hxy, Nat2Z.id in Hc'. congruence.
  - intros H x y Hx Hy.
    destruct (get_cell b x y Hwf Hx Hy) as (c & Hc & Hget).
    exists c. split; [done|]. by eapply H.
Qed.

Lemma next_in_row_spec (b : GenSudoku) (x : Z) (o : option (Z * Z)) :
  next_in_row N b x = Ok o →
  match o with
  | Some p => ∃ y, p = (x, y) ∧ 0 ≤ y < N ∧ get N b x y = Ok 0 ∧
                   ∀ y', 0 ≤ y' < y → ∃ v, get N b x y' = Ok v ∧ v ≠ 0
  | None => ∀ y, 0 ≤ y < N → ∃ v, get N b x y = Ok v ∧ v ≠ 0
  end.
Proof.
  pose proof dimension_bound as HNb. unfold next_in_row, range.
  replace (seqZ 0 N) with (seqZ 0 (Z.of_nat (Z.to_nat N)))
    by (by rewrite Z2Nat.id by lia).
  intros H. apply firstM_range in H. rewrite Z2Nat.id in H by lia.
  assert (Hstep : ∀ y, (let* v := get N b x y in
                        Ok (if v =? 0 then Some (x, y) else None)) = Ok None →
                       ∃ v, get N b x y = Ok v ∧ v ≠ 0).
  { intros y Hy. apply bind_Ok in Hy as (v & Hv & Hy). exists v.
    split; [done|]. by destruct (Z.eqb_spec v 0). }
  destruct o as [p|].
  - destruct H as (y & Hy & Hfy & Hbefore). exists y.
    apply bind_Ok in Hfy as (v & Hv & Hfy).
    destruct (Z.eqb_spec v 0) as [->|]; [|done]. injection Hfy as <-.
    split_and!; [done | lia | lia | done |].
    intros y' Hy'. apply Hstep, Hbefore. lia.
  - intros y Hy. apply Hstep, H. lia.
Qed.

Lemma next_Ok (b : GenSudoku) : wf_board N b → ∃ p, next N b = Ok p.
Proof.
  intros Hwf. unfold next.
  destruct (firstM_Ok (next_in_row N b) (range N)) as [o ->]; [|cbn; eauto].
  intros x Hx%range_elem. apply firstM_Ok. intros y Hy%range_elem.
  destruct (get_cell b x y Hwf Hx Hy) as (c & _ & ->). cbn [bind]. eauto.
Qed.

(** Completeness makes [next] answer the pair of [SIZE_MAX]. *)
Lemma next_complete (b : GenSudoku) :
  isComplete N b = Ok true → next N b = Ok (SIZE_MAX, SIZE_MAX).
Proof.
  rewrite isComplete_true. intros H. unfold next.
  rewrite firstM_None; [done|].
  intros x Hx%range_elem. apply firstM_None. intros y Hy%range_elem.
  destruct (H x y Hx Hy) as (v & -> & Hv). cbn [bind].
  by rewrite (proj2 (Z.eqb_neq _ _) Hv).
Qed.

Lemma next_cases (b : GenSudoku) (p : Z * Z) :
  next N b = Ok p →
  (p = (SIZE_MAX, SIZE_MAX) ∧
   ∀ x y, 0 ≤ x < N → 0 ≤ y < N → ∃ v, get N b x y = Ok v ∧ v ≠ 0) ∨
  (∃ x y, p = (x, y) ∧ 0 ≤ x < N ∧ 0 ≤ y < N ∧ get N b x y = Ok 0 ∧
          ∀ x' y', 0 ≤ x' < N → 0 ≤ y' < N → x' * N + y' < x * N + y →
                   ∃ v, get N b x' y' = Ok v ∧ v ≠ 0).
Proof.
  pose proof dimension_bound as HNb. unfold next. intros H.
  apply bind_Ok in H as (o & Ho & H). injection H as <-.
  unfold range in Ho.
  replace (seqZ 0 N) with (seqZ 0 (Z.of_nat (Z.to_nat N))) in Ho
    by (by rewrite Z2Nat.id by lia).
  apply firstM_range in Ho. rewrite Z2Nat.id in Ho by lia.
  destruct o as [p|]; cbn [default].
  - right. destruct Ho as (x & Hx & Hfx & Hbefore).
    apply next_in_row_spec in Hfx as (y & -> & Hy & Hget & Hrow).
    exists x, y. split_and!; [done | lia | lia | lia | lia | done |].
    intros x' y' Hx' Hy' Hlt.
    destruct (decide (x' = x)) as [->|Hne]; [apply Hrow; lia|].
    assert (x' < x) by nia.
    specialize (Hbefore x'). apply next_in_row_spec in Hbefore; [|lia].
    by apply Hbefore.
  - left. split; [done|]. intros x y Hx Hy.
    specialize (Ho x). apply next_in_row_spec in Ho; [|lia].
    by apply Ho.
Qed.

(** ** Filling the first empty cell *)

Lemma next_found (b : GenSudoku) (x y : Z) :
  wf_board N b → next N b = Ok (x, y) → x ≠ SIZE_MAX →
  0 ≤ x < N ∧ 0 ≤ y < N ∧ get N b x y = Ok 0 ∧
  boardState b !! Z.to_nat (x * N + y) = Some 0 ∧
  ∀ k c, (k < Z.to_nat (x * N + y))%nat → boardState b !! k = Some c → c ≠ 0.
Proof.
  intros Hwf Hnext Hx. pose proof dimension_bound as HNb.
  apply next_cases in Hnext as [[[= -> ->] _] | Hnext]; [done|].
  destruct Hnext as (x0 & y0 & [= <- <-] & Hx0 & Hy0 & Hget & Hbefore).
  split; [done|]. split; [done|]. split; [done|].
  destruct (get_cell b x y Hwf Hx0 Hy0) as (c & Hc & Hget').
  rewrite Hget in Hget'. injection Hget' as <-. split; [done|].
  intros k c Hk Hkc. pose proof (index_lt x y Hx0 Hy0) as Hlt.
  destruct (coordinates k) as (x' & y' & Hx' & Hy' & Hxy'); [lia|].
  destruct (Hbefore x' y' Hx' Hy') as (v & Hv & Hv0); [lia|].
  destruct (get_cell b x' y' Hwf Hx' Hy') as (c' & Hc' & Hget').
  rewrite <- Hxy', Nat2Z.id in Hc'. congruence.
Qed.

Lemma next_none (b : GenSudoku) (x y : Z) :
  next N b = Ok (x, y) → x = SIZE_MAX → isComplete N b = Ok true.
Proof.
  intros Hnext Hx. pose proof dimension_bound as HNb.
  apply next_cases in Hnext as [[_ Hall] | Hnext].
  - by apply isComplete_true.
  - destruct Hnext as (x0 & y0 & [= <- <-] & Hx0 & _). subst x.
    unfold SIZE_MAX in Hx0. rewrite SIZE_MOD_eq in Hx0. lia.
Qed.

Lemma put_cell (b : GenSudoku) (x y i : Z) :
  wf_board N b → 0 ≤ x < N → 0 ≤ y < N → is_uint i →
  ∃ ns, put N b x y i = Ok (ns, ns) ∧ wf_board N ns ∧
        boardState ns = <[Z.to_nat (x * N + y) := i]> (boardState b).
Proof.
  intros [Hlen Hty] Hx Hy Hi. pose proof (index_lt x y Hx Hy) as Hlt.
  unfold put. rewrite index_eq by done.
  rewrite aset_lt by (rewrite Hlen, cells_eq; lia). cbn [bind].
  eexists. split; [done|]. split; [|done]. split; cbn.
  - by rewrite length_insert.
  - by apply Forall_insert.
Qed.

Lemma clue_insert (l : list Z) (k : nat) (v : Z) :
  l !! k = Some 0 → Forall2 clue l (<[k := v]> l).
Proof.
  intros Hk. apply Forall2_same_length_lookup_2; [by rewrite length_insert|].
  intros i c d Hc Hd. destruct (decide (i = k)) as [->|Hne].
  - intros Hc0. congruence.
  - rewrite list_lookup_insert_ne in Hd by done. intros _. congruence.
Qed.

Lemma zeros_insert (l : list Z) : ∀ (k : nat) (v : Z),
  l !! k = Some 0 → v ≠ 0 →
  S (length (filter (λ c, c = 0) (<[k := v]> l)))
  = length (filter (λ c, c = 0) l).
Proof.
  induction l as [|c l IH]; intros k v Hk Hv; [done|].
  destruct k as [|k]; cbn in Hk.
  - injection Hk as ->. change (<[0%nat := v]> (0 :: l)) with (v :: l).
    rewrite filter_cons_False by done.
    by rewrite filter_cons_True by done.
  - change (<[S k := v]> (c :: l)) with (c :: <[k := v]> l).
    rewrite !filter_cons. destruct (decide (c = 0)); cbn [length].
    + by rewrite (IH k v).
    + by apply IH.
Qed.

Lemma zeros_le (b : GenSudoku) : (zeros b ≤ length (boardState b))%nat.
Proof. apply length_filter. Qed.

Lemma clue_full (l1 l2 : list Z) :
  Forall2 clue l1 l2 → Forall (λ c, c ≠ 0) l1 → l2 = l1.
Proof.
  induction 1 as [|c d l1 l2 Hcd _ IH]; [done|].
  intros [Hc Hl]%Forall_cons_1. by rewrite (Hcd Hc), (IH Hl).
Qed.

(** ** The lexicographic order *)

Lemma lex_le_refl (l : list Z) : lex_le l l.
Proof. induction l; cbn; [done | by right]. Qed.

Lemma lex_le_first_diff (k : nat) : ∀ (l1 l2 : list Z) (a c : Z),
  (∀ i, (i < k)%nat → l1 !! i = l2 !! i) →
  l1 !! k = Some a → l2 !! k = Some c → a < c → lex_le l1 l2.
Proof.
  induction k as [|k IH]; intros l1 l2 a c Hbefore H1 H2 Hac.
  - destruct l1 as [|a1 l1], l2 as [|c1 l2]; try done.
    cbn in *. left. congruence.
  - destruct l1 as [|a1 l1], l2 as [|c1 l2]; try done.
    cbn in *. right. split.
    + specialize (Hbefore 0%nat). cbn in Hbefore.
      assert (Some a1 = Some c1) by (apply Hbefore; lia). congruence.
    + apply (IH l1 l2 a c); [|done|done|done].
      intros i Hi. apply (Hbefore (S i)). lia.
Qed.

(** ** [isSolved] *)

Lemma isSolved_true (b : GenSudoku) :
  isSolved N b = Ok true ↔ isValid N b = Ok true ∧ isComplete N b = Ok true.
Proof.
  unfold isSolved. split.
  - intros H. apply bind_Ok in H as (v & Hv & H). by destruct v.
  - intros [-> ->]. done.
Qed.

(** ** [solve]: what every result satisfies *)

Lemma solve_rec_S (fuel : nat) (b : GenSudoku) :
  solve_rec N (S fuel) b
  = let* v := isValid N b in
    if negb v then Ok b
    else
      let* (x, y) := next N b in
      if x =? SIZE_MAX then Ok b
      else try_digits N (solve_rec N fuel) b x y (digits N).
Proof. done. Qed.

Lemma try_digits_cons (rec : GenSudoku → result GenSudoku)
    (b : GenSudoku) (x y i : Z) (ds : list Z) :
  try_digits N rec b x y (i :: ds)
  = let* (ns, _) := put N b x y i in
    let* res := rec ns in
    let* c := isComplete N res in
    if (c : bool) then
      let* v := isValid N res in
      if (v : bool) then Ok res else try_digits N rec b x y ds
    else try_digits N rec b x y ds.
Proof. done. Qed.

Lemma digits_uint : Forall is_uint (digits N).
Proof.
  pose proof dimension_bound as HNb. apply list.Forall_forall.
  intros i Hi. apply elem_of_seqZ in Hi. unfold is_uint, UINT_MOD. lia.
Qed.

Lemma keeps_clues_put (b ns : GenSudoku) (k : nat) (i : Z) :
  boardState b !! k = Some 0 →
  boardState ns = <[k := i]> (boardState b) →
  keeps_clues b ns.
Proof. intros Hk Hns. unfold keeps_clues. rewrite Hns. by apply clue_insert. Qed.

Lemma try_digits_keeps (rec : GenSudoku → result GenSudoku)
    (b : GenSudoku) (x y : Z) :
  (∀ b' r', wf_board N b' → rec b' = Ok r' →
            wf_board N r' ∧ keeps_clues b' r') →
  wf_board N b → 0 ≤ x < N → 0 ≤ y < N →
  boardState b !! Z.to_nat (x * N + y) = Some 0 →
  ∀ ds r, Forall is_uint ds → try_digits N rec b x y ds = Ok r →
          wf_board N r ∧ keeps_clues b r.
Proof.
  intros Hrec Hwf Hx Hy Hcell ds. induction ds as [|i ds IH]; intros r Hds.
  - cbn. intros [= <-]. split; [done | apply keeps_clues_refl].
  - apply Forall_cons_1 in Hds as [Hi Hds]. rewrite try_digits_cons.
    destruct (put_cell b x y i Hwf Hx Hy Hi) as (ns & -> & Hwfns & Hns).
    cbn [bind]. intros H. apply bind_Ok in H as (res & Hres & H).
    destruct (Hrec ns res Hwfns Hres) as [Hwfres Hkeep].
    apply bind_Ok in H as (c & Hc & H).
    destruct c; [|by apply IH].
    apply bind_Ok in H as (v & Hv & H).
    destruct v; [|by apply IH].
    injection H as <-. split; [done|].
    eapply keeps_clues_trans; [|exact Hkeep].
    by eapply keeps_clues_put.
Qed.

Lemma solve_rec_keeps (fuel : nat) : ∀ b r,
  wf_board N b → solve_rec N fuel b = Ok r →
  wf_board N r ∧ keeps_clues b r.
Proof.
  induction fuel as [|fuel IH]; intros b r Hwf; [done|].
  rewrite solve_rec_S. intros H.
  apply bind_Ok in H as (v & Hv & H).
  destruct v; cbn [negb] in H.
  2:{ injection H as <-. split; [done | apply keeps_clues_refl]. }
  apply bind_Ok in H as ([x y] & Hnext & H).
  destruct (Z.eqb_spec x SIZE_MAX) as [Hx|Hx].
  { injection H as <-. split; [done | apply keeps_clues_refl]. }
  destruct (next_found b x y Hwf Hnext Hx) as (Hx' & Hy' & _ & Hcell & _).
  apply (try_digits_keeps (solve_rec N fuel) b x y IH Hwf Hx' Hy' Hcell
           (digits N) r digits_uint H).
Qed.

(** More fuel does not change a result. *)
Lemma try_digits_mono (rec1 rec2 : GenSudoku → result GenSudoku)
    (b : GenSudoku) (x y : Z) :
  (∀ b' r', rec1 b' = Ok r' → rec2 b' = Ok r') →
  ∀ ds r, try_digits N rec1 b x y ds = Ok r →
          try_digits N rec2 b x y ds = Ok r.
Proof.
  intros Hrec ds. induction ds as [|i ds IH]; intros r; [done|].
  rewrite !try_digits_cons. intros H.
  apply bind_Ok in H as ([ns ?] & -> & H). cbn [bind].
  apply bind_Ok in H as (res & Hres & H).
  rewrite (Hrec ns res Hres). cbn [bind].
  apply bind_Ok in H as (c & -> & H). cbn [bind].
  destruct c; [|by apply IH].
  apply bind_Ok in H as (v & -> & H). cbn [bind].
  destruct v; [done | by apply IH].
Qed.

Lemma solve_rec_mono (fuel : nat) : ∀ b r,
  solve_rec N fuel b = Ok r → solve_rec N (S fuel) b = Ok r.
Proof.
  induction fuel as [|fuel IH]; intros b r; [done|].
  rewrite (solve_rec_S (S fuel)), solve_rec_S. intros H.
  apply bind_Ok in H as (v & -> & H). cbn [bind].
  destruct v; cbn [negb] in *; [|done].
  apply bind_Ok in H as ([x y] & -> & H). cbn [bind].
  destruct (x =? SIZE_MAX); [done|].
  by apply (try_digits_mono (solve_rec N fuel)).
Qed.

Lemma solve_rec_fuel (fuel fuel' : nat) (b r : GenSudoku) :
  (fuel ≤ fuel')%nat → solve_rec N fuel b = Ok r →
  solve_rec N fuel' b = Ok r.
Proof.
  induction 1 as [|fuel' _ IH]; [done|].
  intros H. by apply solve_rec_mono, IH.
Qed.

(** ** [solve]: the search finds the first solution *)

Lemma solution_digit (b s : GenSudoku) (k : nat) (c : Z) :
  solution_of N b s → boardState b !! k = Some c →
  ∃ d, boardState s !! k = Some d ∧ 1 ≤ d ≤ N ∧ clue c d.
Proof.
  intros (Hwf & Hsolved & Hkeep) Hc.
  apply isSolved_true in Hsolved as [Hv Hcomplete].
  destruct (Forall2_lookup_l _ _ _ _ _ Hkeep Hc) as (d & Hd & Hcd).
  exists d. split; [done|]. split; [|done].
  apply isValid_in_range in Hv; [|done].
  apply isComplete_cells in Hcomplete; [|done].
  unfold in_range in Hv. rewrite Forall_lookup in Hv, Hcomplete.
  specialize (Hv k d Hd). specialize (Hcomplete k d Hd). cbn in *. lia.
Qed.

Lemma solution_of_put (b ns s : GenSudoku) (k : nat) (m : Z) :
  boardState ns = <[k := m]> (boardState b) →
  solution_of N b s → boardState s !! k = Some m → solution_of N ns s.
Proof.
  intros Hns (Hwf & Hsolved & Hkeep) Hk. split; [done|]. split; [done|].
  unfold keeps_clues in *. rewrite Hns.
  apply Forall2_same_length_lookup_2.
  - rewrite length_insert. by eapply Forall2_length.
  - intros i c d Hc Hd. destruct (decide (i = k)) as [->|Hne].
    + intros _. apply lookup_lt_Some in Hd as Hlt.
      rewrite list_lookup_insert_eq in Hc.
      * congruence.
      * apply Forall2_length in Hkeep. apply lookup_lt_Some in Hk. lia.
    + rewrite list_lookup_insert_ne in Hc by done.
      by eapply Forall2_lookup_lr.
Qed.

Lemma keeps_clues_lookup (b r : GenSudoku) (k : nat) (c : Z) :
  keeps_clues b r → boardState b !! k = Some c → c ≠ 0 →
  boardState r !! k = Some c.
Proof.
  intros Hkeep Hc Hc0.
  destruct (Forall2_lookup_l _ _ _ _ _ Hkeep Hc) as (d & Hd & Hcd).
  by rewrite Hd, (Hcd Hc0).
Qed.

Lemma try_digits_total (rec : GenSudoku → result GenSudoku)
    (b : GenSudoku) (x y : Z) :
  wf_board N b → in_range N b → 0 ≤ x < N → 0 ≤ y < N →
  boardState b !! Z.to_nat (x * N + y) = Some 0 →
  (∀ i c, (i < Z.to_nat (x * N + y))%nat →
          boardState b !! i = Some c → c ≠ 0) →
  (∀ b', wf_board N b' → in_range N b' → S (zeros b') = zeros b →
         ∃ r, rec b' = Ok r ∧ search_post N b' r) →
  ∀ (n : nat) (m : Z), 1 ≤ m → m + Z.of_nat n = N + 1 →
    ∃ r, try_digits N rec b x y (seqZ m (Z.of_nat n)) = Ok r ∧
         wf_board N r ∧ in_range N r ∧ keeps_clues b r ∧
         ∀ s d, solution_of N b s →
                boardState s !! Z.to_nat (x * N + y) = Some d → m ≤ d →
                isSolved N r = Ok true ∧
                lex_le (boardState r) (boardState s).
Proof.
  intros Hwf Hrange Hx Hy Hcell Hbefore Hrec.
  pose proof dimension_bound as HNb.
  set (k := Z.to_nat (x * N + y)) in *.
  induction n as [|n IH]; intros m Hm Hmn.
  - exists b. split; [done|]. split; [done|]. split; [done|].
    split; [apply keeps_clues_refl|]. intros s d Hs Hd Hmd.
    destruct (solution_digit b s k 0 Hs Hcell) as (d' & Hd' & Hrange' & _).
    rewrite Hd in Hd'. injection Hd' as <-. lia.
  - rewrite seqZ_step by lia.
    replace (Z.of_nat (S n) - 1) with (Z.of_nat n) by lia.
    rewrite try_digits_cons.
    assert (Hmu : is_uint m) by (unfold is_uint, UINT_MOD; lia).
    destruct (put_cell b x y m Hwf Hx Hy Hmu) as (ns & -> & Hwfns & Hns).
    fold k in Hns. cbn [bind].
    assert (Hrangens : in_range N ns).
    { unfold in_range. rewrite Hns. apply Forall_insert; [done | lia]. }
    assert (Hzeros : S (zeros ns) = zeros b).
    { unfold zeros. rewrite Hns. apply zeros_insert; [done | lia]. }
    destruct (Hrec ns Hwfns Hrangens Hzeros)
      as (res & -> & Hwfres & Hrangeres & Hkeepres & Hsol).
    cbn [bind].
    assert (Hkeepns : keeps_clues b ns) by (by eapply keeps_clues_put).
    destruct (isComplete_Ok res Hwfres) as [c Hc].
    destruct (isValid_Ok res Hwfres Hrangeres) as [v Hv].
    rewrite Hc. cbn [bind].
    destruct (IH (m + 1)) as (r' & Hr' & Hwfr' & Hranger' & Hkeepr' & Hsolr');
      [lia | lia |].
    assert (Hcont : isSolved N res ≠ Ok true →
      ∀ s d, solution_of N b s → boardState s !! k = Some d → m ≤ d →
             isSolved N r' = Ok true ∧
             lex_le (boardState r') (boardState s)).
    { intros Hunsolved s d Hs Hd Hmd. apply (Hsolr' s d Hs Hd).
      destruct (decide (d = m)) as [->|Hne]; [|lia].
      destruct Hunsolved.
      by apply (Hsol s), (solution_of_put b ns s k m). }
    destruct c.
    2:{ exists r'. split; [done|]. split; [done|]. split; [done|].
        split; [done|]. apply Hcont. rewrite isSolved_true, Hc.
        by intros [_ [=]]. }
    rewrite Hv. cbn [bind]. destruct v.
    2:{ exists r'. split; [done|]. split; [done|]. split; [done|].
        split; [done|]. apply Hcont. rewrite isSolved_true, Hv.
        by intros [[=] _]. }
    assert (Hkeepbres : keeps_clues b res)
      by exact (keeps_clues_trans b ns res Hkeepns Hkeepres).
    exists res. split; [done|]. split; [done|]. split; [done|].
    split; [done|].
    intros s d Hs Hd Hmd. split; [by apply isSolved_true|].
    destruct (decide (d = m)) as [->|Hne].
    + by apply (Hsol s), (solution_of_put b ns s k m).
    + apply (lex_le_first_diff k _ _ m d); [| | done | lia].
      * intros i Hi.
        assert (Hlt : (i < length (boardState b))%nat).
        { apply lookup_lt_Some in Hcell. lia. }
        destruct (lookup_lt_is_Some_2 _ _ Hlt) as [ci Hci].
        pose proof (Hbefore i ci Hi Hci) as Hci0.
        rewrite (keeps_clues_lookup b res i ci) by done.
        destruct Hs as (_ & _ & Hkeeps).
        by rewrite (keeps_clues_lookup b s i ci).
      * apply (keeps_clues_lookup ns res k m Hkeepres); [|lia].
        rewrite Hns. apply list_lookup_insert_eq.
        by apply lookup_lt_Some in Hcell.
Qed.

Lemma digits_range : digits N = seqZ 1 (Z.of_nat (Z.to_nat N)).
Proof. pose proof dimension_bound. unfold digits. by rewrite Z2Nat.id by lia. Qed.

Lemma solve_rec_total (fuel : nat) : ∀ b,
  wf_board N b → in_range N b → (zeros b < fuel)%nat →
  ∃ r, solve_rec N fuel b = Ok r ∧ search_post N b r.
Proof.
  pose proof dimension_bound as HNb.
  induction fuel as [|fuel IH]; intros b Hwf Hrange Hfuel; [lia|].
  rewrite solve_rec_S.
  destruct (isValid_Ok b Hwf Hrange) as [v Hv]. rewrite Hv. cbn [bind].
  destruct v; cbn [negb].
  2:{ exists b. split; [done|]. split; [done|]. split; [done|].
      split; [apply keeps_clues_refl|]. intros s (_ & Hs & Hkeep).
      apply isSolved_true in Hs as [Hvs _].
      apply (isValid_mono b s Hkeep) in Hvs. congruence. }
  destruct (next_Ok b Hwf) as [[x y] Hnext]. rewrite Hnext. cbn [bind].
  destruct (Z.eqb_spec x SIZE_MAX) as [Hx|Hx].
  - exists b. split; [done|]. split; [done|]. split; [done|].
    split; [apply keeps_clues_refl|]. intros s (_ & _ & Hkeep).
    apply next_none in Hnext; [|done].
    split; [by apply isSolved_true|].
    apply isComplete_cells in Hnext; [|done].
    rewrite (clue_full _ _ Hkeep Hnext). apply lex_le_refl.
  - destruct (next_found b x y Hwf Hnext Hx)
      as (Hx' & Hy' & _ & Hcell & Hbefore).
    rewrite digits_range.
    destruct (try_digits_total (solve_rec N fuel) b x y Hwf Hrange Hx' Hy'
                Hcell Hbefore) with (n := Z.to_nat N) (m := 1)
      as (r & Hr & Hwfr & Hranger & Hkeepr & Hsol); [| lia | lia |].
    { intros b' Hwf' Hrange' Hzeros. apply IH; [done | done | lia]. }
    exists r. split; [done|]. split; [done|]. split; [done|].
    split; [done|]. intros s Hs.
    destruct (solution_digit b s _ 0 Hs Hcell) as (d & Hd & Hdrange & _).
    apply (Hsol s d Hs Hd). lia.
Qed.

Lemma solve_fuel_enough (b : GenSudoku) :
  wf_board N b → (zeros b < S (Z.to_nat (cells N)))%nat.
Proof. intros [Hlen _]. pose proof (zeros_le b). lia. Qed.

(** ** [solve]: the recursion ends *)

Lemma bind_fueled {A B} (m : result A) (k : A → result B) :
  m ≠ OutOfFuel → (∀ a, m = Ok a → k a ≠ OutOfFuel) →
  bind m k ≠ OutOfFuel.
Proof. destruct m as [a| |]; cbn; intros Hm Hk; [by apply Hk | done | done]. Qed.

Lemma aget_fueled {A} (a : list A) (k : Z) : aget a k ≠ OutOfFuel.
Proof. unfold aget. by destruct (a !! Z.to_nat k). Qed.

Lemma aset_fueled {A} (a : list A) (k : Z) (v : A) : aset a k v ≠ OutOfFuel.
Proof. unfold aset. by case_decide. Qed.

Lemma foldM_fueled {St} (body : Z → St → result St) (ks : list Z) :
  (∀ k s, body k s ≠ OutOfFuel) → ∀ s, foldM body ks s ≠ OutOfFuel.
Proof.
  intros Hbody. induction ks as [|k ks IH]; intros s; cbn [foldM]; [done|].
  apply bind_fueled; [done|]. intros s' _. apply IH.
Qed.

Lemma allM_fueled (p : Z → result bool) (ks : list Z) :
  (∀ k, p k ≠ OutOfFuel) → allM p ks ≠ OutOfFuel.
Proof.
  intros Hp. induction ks as [|k ks IH]; cbn [allM]; [done|].
  apply bind_fueled; [done|]. by intros [] _.
Qed.

Lemma firstM_fueled {A} (f : Z → result (option A)) (ks : list Z) :
  (∀ k, f k ≠ OutOfFuel) → firstM f ks ≠ OutOfFuel.
Proof.
  intros Hf. induction ks as [|k ks IH]; cbn [firstM]; [done|].
  apply bind_fueled; [done|]. by intros [a|] _.
Qed.

Lemma extract_fueled (board bs : list Z) (k1 k2 : Z) :
  (let* v := aget board k1 in aset bs k2 v) ≠ OutOfFuel.
Proof.
  apply bind_fueled; [apply aget_fueled|]. intros v _. apply aset_fueled.
Qed.

Lemma sectionValid_fueled (bs : list Z) : sectionValid N bs ≠ OutOfFuel.
Proof.
  unfold sectionValid. generalize (replicate (Z.to_nat (sz_add N 1)) false).
  induction bs as [|c bs IH]; intros positions; cbn [sectionValid_loop];
    [done|].
  destruct (c =? 0); [done|].
  apply bind_fueled; [apply aget_fueled|]. intros [] _; [done|].
  apply bind_fueled; [apply aset_fueled|]. intros positions' _. apply IH.
Qed.

Lemma isValid_fueled (b : GenSudoku) : isValid N b ≠ OutOfFuel.
Proof.
  unfold isValid, rowValid, colValid, quadrantValid, row, col, quadrant.
  apply bind_fueled.
  { apply allM_fueled. intros x. apply bind_fueled.
    - apply foldM_fueled. intros. apply extract_fueled.
    - intros. apply sectionValid_fueled. }
  intros [] _; cbn [negb]; [|done]. apply bind_fueled.
  { apply allM_fueled. intros y. apply bind_fueled.
    - apply foldM_fueled. intros. apply extract_fueled.
    - intros. apply sectionValid_fueled. }
  intros [] _; cbn [negb]; [|done].
  apply allM_fueled. intros x. apply allM_fueled. intros y.
  apply bind_fueled.
  - apply foldM_fueled. intros. apply foldM_fueled. intros.
    apply extract_fueled.
  - intros. apply sectionValid_fueled.
Qed.

Lemma get_fueled (b : GenSudoku) (x y : Z) : get N b x y ≠ OutOfFuel.
Proof. unfold get. destruct (cells N <=? index N x y); [done|]. apply aget_fueled. Qed.

Lemma isComplete_fueled (b : GenSudoku) : isComplete N b ≠ OutOfFuel.
Proof.
  unfold isComplete. apply allM_fueled. intros x. apply allM_fueled.
  intros y. apply bind_fueled; [apply get_fueled | done].
Qed.

Lemma next_fueled (b : GenSudoku) : next N b ≠ OutOfFuel.
Proof.
  unfold next. apply bind_fueled; [|done].
  apply firstM_fueled. intros x. apply firstM_fueled. intros y.
  apply bind_fueled; [apply get_fueled | done].
Qed.

Lemma try_digits_fueled (rec : GenSudoku → result GenSudoku)
    (b : GenSudoku) (x y : Z) :
  wf_board N b → 0 ≤ x < N → 0 ≤ y < N →
  boardState b !! Z.to_nat (x * N + y) = Some 0 →
  (∀ b', wf_board N b' → S (zeros b') = zeros b → rec b' ≠ OutOfFuel) →
  ∀ ds, Forall (λ i, 1 ≤ i ≤ N) ds →
        try_digits N rec b x y ds ≠ OutOfFuel.
Proof.
  intros Hwf Hx Hy Hcell Hrec ds. pose proof dimension_bound as HNb.
  induction ds as [|i ds IH]; intros Hds; [done|].
  apply Forall_cons_1 in Hds as [Hi Hds]. rewrite try_digits_cons.
  assert (Hiu : is_uint i) by (unfold is_uint, UINT_MOD; lia).
  destruct (put_cell b x y i Hwf Hx Hy Hiu) as (ns & -> & Hwfns & Hns).
  cbn [bind]. apply bind_fueled.
  { apply Hrec; [done|]. unfold zeros. rewrite Hns.
    apply zeros_insert; [done | lia]. }
  intros res _. apply bind_fueled; [apply isComplete_fueled|].
  intros [] _; [|by apply IH].
  apply bind_fueled; [apply isValid_fueled|].
  intros [] _; [done | by apply IH].
Qed.

Lemma digits_bounds : Forall (λ i, 1 ≤ i ≤ N) (digits N).
Proof.
  apply list.Forall_forall. intros i Hi. apply elem_of_seqZ in Hi. lia.
Qed.

Lemma solve_rec_fueled (fuel : nat) : ∀ b,
  wf_board N b → (zeros b < fuel)%nat → solve_rec N fuel b ≠ OutOfFuel.
Proof.
  induction fuel as [|fuel IH]; intros b Hwf Hfuel; [lia|].
  rewrite solve_rec_S. apply bind_fueled; [apply isValid_fueled|].
  intros [] _; cbn [negb]; [|done].
  apply bind_fueled; [apply next_fueled|]. intros [x y] Hnext.
  destruct (Z.eqb_spec x SIZE_MAX) as [Hx|Hx]; [done|].
  destruct (next_found b x y Hwf Hnext Hx) as (Hx' & Hy' & _ & Hcell & _).
  apply try_digits_fueled; [done | done | done | done | | apply digits_bounds].
  intros b' Hwf' Hzeros. apply IH; [done | lia].
Qed.

End Board.

(** * The specification, statement by statement *)

Lemma dimension_4 : dimension 4.
Proof. unfold dimension. lia. Qed.

(** The board of [main] is valid, and its first empty cell is [(0, 1)]. *)
Lemma expert_start :
  wf_board 9 expert ∧ isValid 9 expert = Ok true ∧ next 9 expert = Ok (0, 1).
Proof. split; [split; [reflexivity | uint_cells] | split; reflexivity]. Qed.

Lemma wf_small : wf_board 4 small.
Proof. split; [reflexivity | uint_cells]. Qed.

Lemma wf_small_solved : wf_board 4 small_solved.
Proof. split; [reflexivity | uint_cells]. Qed.

Lemma in_range_small : in_range 4 small.
Proof. unfold in_range, small, boardState. cells_by lia. Qed.

Lemma small_solved_keeps : keeps_clues small small_solved.
Proof. unfold keeps_clues, small, small_solved, boardState. clue_cells. Qed.

(** C1.  For every dimension [N] (with or without an integral square
    root) and every board [b] whose cells lie in [0, N]: if some solved
    board keeps the clues of [b], then [solve b] returns a board that is
    valid and complete, keeps the clues of [b], and comes first, in the
    lexicographic order of the row-major reading, among all solved boards
    that keep the clues of [b].  That board is the one reached by filling
    the first empty cell with the digits [1..N] in ascending order. *)
Theorem solve_first_solution (N : Z) (b : GenSudoku) :
  dimension N → wf_board N b → in_range N b →
  (∃ s, wf_board N s ∧ isSolved N s = Ok true ∧ keeps_clues b s) →
  ∃ r, solve N b = Ok r ∧ wf_board N r ∧
       isValid N r = Ok true ∧ isComplete N r = Ok true ∧
       keeps_clues b r ∧
       ∀ s, wf_board N s → isSolved N s = Ok true → keeps_clues b s →
            lex_le (boardState r) (boardState s).
Proof.
  intros HN Hwf Hrange (s0 & Hs0).
  destruct (solve_rec_total N HN (S (Z.to_nat (cells N))) b Hwf Hrange)
    as (r & Hr & Hwfr & _ & Hkeep & Hsol); [by apply solve_fuel_enough|].
  exists r. split; [done|]. split; [done|].
  destruct (Hsol s0 Hs0) as [Hsolved _].
  apply isSolved_true in Hsolved as [Hv Hc].
  split; [done|]. split; [done|]. split; [done|].
  intros s Hwfs Hs Hkeeps. by apply (Hsol s).
Qed.

Lemma solve_first_solution_witness :
  ∃ r, solve 4 small = Ok r ∧ wf_board 4 r ∧
       isValid 4 r = Ok true ∧ isComplete 4 r = Ok true ∧
       keeps_clues small r ∧
       ∀ s, wf_board 4 s → isSolved 4 s = Ok true → keeps_clues small s →
            lex_le (boardState r) (boardState s).
Proof.
  apply (solve_first_solution 4 small dimension_4 wf_small in_range_small).
  exists small_solved. split; [exact wf_small_solved|].
  split; [reflexivity | exact small_solved_keeps].
Defined.

(** C2 does not hold as the specification words it: the receiver does
    not stay as it was.  On the board [small], [put(0, 1, 2)] leaves the
    receiver changed. *)
Lemma put_changes_receiver :
  ∃ ret this', put 4 small 0 1 2 = Ok (ret, this') ∧ this' ≠ small.
Proof. eexists _, _. split; [reflexivity | discriminate]. Qed.

Lemma put_writes_receiver_witness :
  ∃ b', put 4 small 0 1 2 = Ok (b', b') ∧
        wf_board 4 b' ∧
        get 4 b' 0 1 = Ok 2 ∧
        boardState b' !! Z.to_nat (index 4 0 1) = Some 2 ∧
        ∀ k, k ≠ Z.to_nat (index 4 0 1) →
             boardState b' !! k = boardState small !! k.
Proof.
  apply (put_writes_receiver 4 small 0 1 2 wf_small).
  - unfold is_uint, UINT_MOD. lia.
  - reflexivity.
Defined.

(** A row that holds a non-zero value twice makes the board invalid. *)
Lemma row_duplicate_invalid (N : Z) (b : GenSudoku) (x y1 y2 v : Z) :
  dimension N → wf_board N b → in_range N b →
  0 ≤ x < N → 0 ≤ y1 < y2 → y2 < N → v ≠ 0 →
  boardState b !! Z.to_nat (x * N + y1) = Some v →
  boardState b !! Z.to_nat (x * N + y2) = Some v →
  isValid N b = Ok false.
Proof.
  intros HN Hwf Hrange Hx Hy1 Hy2 Hv H1 H2.
  destruct (isValid_Ok N HN b Hwf Hrange) as [[] Hvalid]; [|done].
  exfalso. apply (isValid_true N) in Hvalid as (Hr & _ & _).
  specialize (Hr x Hx). unfold rowValid in Hr.
  destruct (row_spec N HN b x Hwf Hx) as (bs & Hbs & [_ HP] & Hrow).
  rewrite Hbs in Hr. cbn [bind] in Hr.
  destruct (sectionValid_Ok N HN bs) as (r & Hr' & Hiff).
  { apply (HP (λ c, 0 ≤ c ≤ N)); [destruct HN; lia | done]. }
  rewrite Hr in Hr'. injection Hr' as <-.
  assert (Hdup : ∃ v, v ≠ 0 ∧ occurs_twice v bs).
  { exists v. split; [done|]. exists (Z.to_nat y1), (Z.to_nat y2).
    split; [lia|]. rewrite !Hrow by lia. done. }
  apply Hiff in Hdup. done.
Qed.

Lemma contradictory_invalid : isValid 9 contradictory = Ok false.
Proof. reflexivity. Qed.

(** C3.  A board on which [isValid] answers [false] is returned by
    [solve] as it is, cell for cell: the result is the board itself, not a
    separate error value. *)
Theorem solve_invalid_unchanged (N : Z) (b : GenSudoku) :
  isValid N b = Ok false → solve N b = Ok b.
Proof. intros Hv. unfold solve. cbn [solve_rec]. by rewrite Hv. Qed.

Lemma solve_invalid_unchanged_witness :
  solve 9 contradictory = Ok contradictory.
Proof.
  apply (solve_invalid_unchanged 9 contradictory). reflexivity.
Defined.

Lemma sectionValid_spec_witness : sectionValid 4 [1; 0; 1; 0] = Ok false.
Proof.
  assert (Hbs : Forall (λ c, 0 ≤ c ≤ 4) [1; 0; 1; 0]) by cells_by lia.
  destruct (sectionValid_spec 4 [1; 0; 1; 0] dimension_4 Hbs) as [H _].
  apply H. exists 1. split; [lia|].
  exists 0%nat, 2%nat. split; [lia|]. split; reflexivity.
Defined.

Lemma get_total_witness : get 4 small 7 0 = Ok 0.
Proof.
  destruct (get_total 4 small 7 0 wf_small) as [H _].
  apply H. vm_compute. discriminate.
Defined.

Lemma put_unchecked_witness :
  put 4 small 4 0 1 = OutOfBounds ∧ get 4 small 4 0 = Ok 0.
Proof.
  assert (Hval : is_uint 1) by (unfold is_uint, UINT_MOD; lia).
  destruct (put_unchecked 4 small 4 0 1 wf_small Hval) as [_ H].
  apply H. vm_compute. discriminate.
Defined.

(** C7.  On every board, a result of [solve] has the cells of the board
    and holds, at every cell where the board is not empty, the value of
    the board; on a board whose cells lie in [0, N], [solve] does return
    such a result.  Each step of the search writes one cell: the cell
    that [next] answers is empty, and [put] there gives the board with
    that one cell replaced. *)
Theorem solve_keeps_clues (N : Z) (b : GenSudoku) :
  dimension N → wf_board N b →
  (∀ r, solve N b = Ok r →
        wf_board N r ∧
        ∀ k c, boardState b !! k = Some c → c ≠ 0 →
               boardState r !! k = Some c) ∧
  (in_range N b → ∃ r, solve N b = Ok r ∧ keeps_clues b r) ∧
  (∀ x y, next N b = Ok (x, y) → x ≠ SIZE_MAX →
     get N b x y = Ok 0 ∧
     ∀ i, is_uint i →
          ∃ ns, put N b x y i = Ok (ns, ns) ∧
                boardState ns
                = <[Z.to_nat (x * N + y) := i]> (boardState b)).
Proof.
  intros HN Hwf. split_and!.
  - intros r Hr. unfold solve in Hr.
    destruct (solve_rec_keeps N HN _ b r Hwf Hr) as [Hwfr Hkeep].
    split; [done|]. intros k c. by apply keeps_clues_lookup.
  - intros Hrange.
    destruct (solve_rec_total N HN (S (Z.to_nat (cells N))) b Hwf Hrange)
      as (r & Hr & _ & _ & Hkeep & _); [by apply solve_fuel_enough|].
    by exists r.
  - intros x y Hnext Hx.
    destruct (next_found N HN b x y Hwf Hnext Hx)
      as (Hx' & Hy' & Hget & _ & _).
    split; [done|]. intros i Hi.
    destruct (put_cell N HN b x y i Hwf Hx' Hy' Hi) as (ns & Hput & _ & Hns).
    by exists ns.
Qed.

Lemma solve_keeps_clues_witness :
  ∃ r, solve 4 small = Ok r ∧ keeps_clues small r.
Proof.
  destruct (solve_keeps_clues 4 small dimension_4 wf_small) as (_ & H & _).
  apply H. exact in_range_small.
Defined.

(** C8.  On a solved board [solve] returns the board itself, and so
    solving the result again returns the same result. *)
Theorem solve_solved_noop (N : Z) (b : GenSudoku) :
  isSolved N b = Ok true →
  solve N b = Ok b ∧ (let* r := solve N b in solve N r) = solve N b.
Proof.
  intros Hsolved. apply isSolved_true in Hsolved as [Hv Hc].
  assert (Hsolve : solve N b = Ok b).
  { unfold solve. rewrite solve_rec_S, Hv. cbn [bind negb].
    rewrite (next_complete N b Hc). cbn [bind]. by rewrite Z.eqb_refl. }
  split; [done|]. rewrite Hsolve. cbn [bind]. done.
Qed.

Lemma solve_solved_noop_witness :
  solve 4 small_solved = Ok small_solved ∧
  (let* r := solve 4 small_solved in solve 4 r) = solve 4 small_solved.
Proof. apply (solve_solved_noop 4 small_solved). reflexivity. Defined.

(** C9.  [solve] ends on every board.  A board has at most [N * N] empty
    cells; with one frame per empty cell and one more, the recursion does
    not run out of frames, so its depth is at most [N * N]; more frames
    change nothing.  On a board whose cells lie in [0, N] the outcome is a
    board.  At each level the candidates are the [N] digits [1..N], and
    writing any of them at the cell that [next] answers gives a board with
    one empty cell less. *)
Theorem solve_terminates (N : Z) (b : GenSudoku) :
  dimension N → wf_board N b →
  (zeros b ≤ Z.to_nat (N * N))%nat ∧
  (∀ fuel, (zeros b < fuel)%nat → solve_rec N fuel b ≠ OutOfFuel) ∧
  solve N b ≠ OutOfFuel ∧
  (in_range N b →
   ∃ r, solve N b = Ok r ∧
        ∀ fuel, (zeros b < fuel)%nat → solve_rec N fuel b = Ok r) ∧
  length (digits N) = Z.to_nat N ∧
  (∀ x y i, next N b = Ok (x, y) → x ≠ SIZE_MAX → i ∈ digits N →
     i ≠ 0 ∧
     ∃ ns, put N b x y i = Ok (ns, ns) ∧ wf_board N ns ∧
           S (zeros ns) = zeros b).
Proof.
  intros HN Hwf. pose proof (solve_fuel_enough N b Hwf) as Hfuel.
  split_and!.
  - rewrite <- (cells_eq N HN). lia.
  - intros fuel Hlt. by apply solve_rec_fueled.
  - by apply solve_rec_fueled.
  - intros Hrange.
    destruct (solve_rec_total N HN (S (zeros b)) b Hwf Hrange)
      as (r & Hr & _); [lia|].
    exists r. split.
    + apply (solve_rec_fuel N (S (zeros b))); [lia | done].
    + intros fuel Hlt. apply (solve_rec_fuel N (S (zeros b))); [lia | done].
  - unfold digits. by rewrite length_seqZ.
  - intros x y i Hnext Hx Hi. apply elem_of_seqZ in Hi.
    split; [lia|].
    destruct (next_found N HN b x y Hwf Hnext Hx)
      as (Hx' & Hy' & _ & Hcell & _).
    assert (Hiu : is_uint i) by (destruct HN; unfold is_uint, UINT_MOD; lia).
    destruct (put_cell N HN b x y i Hwf Hx' Hy' Hiu) as (ns & Hput & Hwfns & Hns).
    exists ns. split; [done|]. split; [done|].
    unfold zeros. rewrite Hns. apply zeros_insert; [done | lia].
Qed.

Lemma solve_terminates_witness :
  ∃ r, solve 4 small = Ok r ∧
       ∀ fuel, (zeros small < fuel)%nat → solve_rec 4 fuel small = Ok r.
Proof.
  destruct (solve_terminates 4 small dimension_4 wf_small)
    as (_ & _ & _ & H & _).
  apply H. exact in_range_small.
Defined.


(** * Further properties of the code *)

(** ** The cells of a column and of a quadrant *)

Section Contents.

Variable N : Z.
Hypothesis HN : dimension N.

Lemma col_content (b : GenSudoku) (y : Z) :
  wf_board N b → 0 ≤ y < N →
  ∃ bs, col N b y = Ok bs ∧ length bs = Z.to_nat N ∧
        ∀ x, 0 ≤ x < N →
             bs !! Z.to_nat x = boardState b !! Z.to_nat (x * N + y).
Proof.
  intros [Hlen _] Hy. pose proof (dimension_bound N HN) as HNb.
  rewrite (cells_eq N HN) in Hlen. unfold col, range.
  destruct (foldM_range_inv
    (λ k bs, length bs = Z.to_nat N ∧
             ∀ x, 0 ≤ x < k →
                  bs !! Z.to_nat x = boardState b !! Z.to_nat (x * N + y))
    (λ x bs, let* v := aget (boardState b) (index N x y) in aset bs x v)
    (Z.to_nat N) 0 (empty_section N)) as (bs & Hbs & Hl & Hcol).
  - split; [apply length_replicate | intros x Hx; lia].
  - intros k bs Hk [Hl Hcol]. rewrite (index_eq N HN) by lia.
    pose proof (index_lt N k y) as Hlt.
    destruct (extract_step (boardState b) bs (k * N + y) k) as (v & Hv & ->);
      [lia | lia |].
    eexists. split; [done|]. split; [by rewrite length_insert|].
    intros x Hx. destruct (decide (x = k)) as [->|Hne].
    + rewrite list_lookup_insert_eq by lia. done.
    + rewrite list_lookup_insert_ne by lia. apply Hcol. lia.
  - rewrite Z2Nat.id in Hbs by lia. exists bs. split; [done|].
    split; [done|]. intros x Hx. apply Hcol. lia.
Qed.

(** The index expressions of [quadrant] without their wrap-around. *)
Lemma quadrant_indices (x y i j : Z) :
  0 < side N →
  0 ≤ x < side N → 0 ≤ y < side N → 0 ≤ i < side N → 0 ≤ j < side N →
  sz_add (sz_mul (side N) (index N x y)) (sz_add (sz_mul i N) j)
  = (x * side N + i) * N + (y * side N + j) ∧
  sz_add (sz_mul i (side N)) j = i * side N + j ∧
  0 ≤ x * side N + i < N ∧ 0 ≤ y * side N + j < N ∧
  0 ≤ i * side N + j < N.
Proof.
  pose proof (dimension_bound N HN) as HNb. intros Hs0 Hx Hy Hi Hj.
  destruct (side_cases N HN) as [Hs | [Hs Hsq]]; [lia|].
  set (s := side N) in *.
  assert (Hs1 : s ≤ N) by (nia).
  assert (Hmul : ∀ a, 0 ≤ a < s → 0 ≤ a * s ∧ a * s + s ≤ N).
  { intros a Ha. nia. }
  assert (HmulN : ∀ a, 0 ≤ a < N → 0 ≤ a * N ∧ a * N + N ≤ N * N).
  { intros a Ha. nia. }
  assert (Hxi : 0 ≤ x * s + i < N) by (specialize (Hmul x Hx); lia).
  assert (Hyj : 0 ≤ y * s + j < N) by (specialize (Hmul y Hy); lia).
  assert (Hij : 0 ≤ i * s + j < N) by (specialize (Hmul i Hi); lia).
  assert (Hcell : 0 ≤ (x * s + i) * N + (y * s + j) < N * N)
    by (specialize (HmulN (x * s + i) Hxi); lia).
  assert (HiN : 0 ≤ i * N + j < N * N)
    by (specialize (HmulN i ltac:(lia)); lia).
  assert (Hxy : 0 ≤ x * N + y < N * N)
    by (specialize (HmulN x ltac:(lia)); lia).
  assert (HNN : N * N < 4611686018427387904) by (nia).
  assert (Heq : s * (x * N + y) + (i * N + j)
                = (x * s + i) * N + (y * s + j)) by ring.
  assert (Hsxy : 0 ≤ s * (x * N + y)).
  { apply Z.mul_nonneg_nonneg; lia. }
  rewrite (index_eq N HN) by lia.
  rewrite (sz_mul_small s) by (rewrite SIZE_MOD_eq; lia).
  rewrite (sz_mul_small i N) by (rewrite SIZE_MOD_eq; lia).
  rewrite (sz_add_small (i * N)) by (rewrite SIZE_MOD_eq; lia).
  rewrite (sz_add_small (s * _)) by (rewrite SIZE_MOD_eq; lia).
  rewrite (sz_mul_small i s) by (rewrite SIZE_MOD_eq; lia).
  rewrite (sz_add_small (i * s)) by (rewrite SIZE_MOD_eq; lia).
  split_and!; lia.
Qed.

Lemma quadrant_content (b : GenSudoku) (x y : Z) :
  wf_board N b → 0 < side N → 0 ≤ x < side N → 0 ≤ y < side N →
  ∃ bs, quadrant N b x y = Ok bs ∧ length bs = Z.to_nat N ∧
        ∀ i j, 0 ≤ i < side N → 0 ≤ j < side N →
               bs !! Z.to_nat (i * side N + j)
               = boardState b
                   !! Z.to_nat ((x * side N + i) * N + (y * side N + j)).
Proof.
  intros [Hlen _] Hs0 Hx Hy. pose proof (dimension_bound N HN) as HNb.
  rewrite (cells_eq N HN) in Hlen. unfold quadrant, range.
  set (s := side N) in *.
  set (src := λ i j, (x * s + i) * N + (y * s + j)).
  set (inner := λ i j (bs : list Z),
         let* v := aget (boardState b)
                     (sz_add (sz_mul s (index N x y))
                             (sz_add (sz_mul i N) j)) in
         aset bs (sz_add (sz_mul i s) j) v).
  set (done_rows := λ (i : Z) (bs : list Z),
         ∀ i' j', 0 ≤ i' < i → 0 ≤ j' < s →
                  bs !! Z.to_nat (i' * s + j')
                  = boardState b !! Z.to_nat (src i' j')).
  destruct (foldM_range_inv
    (λ i bs, length bs = Z.to_nat N ∧ done_rows i bs)
    (λ i bs, foldM (inner i) (seqZ 0 s) bs)
    (Z.to_nat s) 0 (empty_section N)) as (bs & Hbs & Hl & Hrows).
  - split; [apply length_replicate | intros i' j' Hi'; lia].
  - intros i bs Hi [Hl Hrows].
    destruct (foldM_range_inv
      (λ j bs, length bs = Z.to_nat N ∧ done_rows i bs ∧
               ∀ j', 0 ≤ j' < j →
                     bs !! Z.to_nat (i * s + j')
                     = boardState b !! Z.to_nat (src i j'))
      (inner i) (Z.to_nat s) 0 bs) as (bs' & Hbs' & Hl' & Hrows' & Hrow').
    + split; [done|]. split; [done|]. intros j' Hj'. lia.
    + intros j bs0 Hj (Hl0 & Hrows0 & Hrow0). unfold inner.
      destruct (quadrant_indices x y i j) as (E1 & E2 & Hxi & Hyj & Hij);
        [done | done | done | lia | lia |].
      fold s in E1, E2, Hxi, Hyj, Hij. rewrite E1, E2. fold (src i j).
      pose proof (index_lt N _ _ Hxi Hyj) as Hsrc. fold (src i j) in Hsrc.
      destruct (extract_step (boardState b) bs0 (src i j) (i * s + j))
        as (v & Hv & ->); [lia | lia |].
      eexists. split; [done|]. split; [by rewrite length_insert|].
      split.
      * intros i' j' Hi' Hj'.
        assert (i' * s + j' < i * s + j) by nia.
        assert (0 ≤ i' * s + j') by nia.
        rewrite list_lookup_insert_ne by lia. by apply Hrows0.
      * intros j' Hj'. destruct (decide (j' = j)) as [->|Hne].
        -- rewrite list_lookup_insert_eq by lia. done.
        -- assert (0 ≤ i * s) by nia.
           rewrite list_lookup_insert_ne by lia. apply Hrow0. lia.
    + rewrite Z2Nat.id in Hbs' by lia. exists bs'. split; [done|].
      split; [done|]. intros i' j' Hi' Hj'.
      destruct (decide (i' = i)) as [->|Hne].
      * apply Hrow'. lia.
      * apply Hrows'; lia.
  - rewrite Z2Nat.id in Hbs by lia. exists bs. split; [done|].
    split; [done|]. intros i j Hi Hj. apply Hrows; lia.
Qed.

(** ** Sections without a repeated digit *)

Lemma get_lookup (b : GenSudoku) (x y v : Z) :
  wf_board N b → 0 ≤ x < N → 0 ≤ y < N →
  (get N b x y = Ok v ↔ boardState b !! Z.to_nat (x * N + y) = Some v).
Proof.
  intros Hwf Hx Hy.
  destruct (get_cell N HN b x y Hwf Hx Hy) as (c & Hc & Hget).
  rewrite Hc, Hget. split; congruence.
Qed.

Lemma sectionValid_distinct (bs : list Z) :
  Forall (λ c, 0 ≤ c ≤ N) bs →
  (sectionValid N bs = Ok true ↔
   ∀ (p q : nat) v, p ≠ q → bs !! p = Some v → bs !! q = Some v → v = 0).
Proof.
  intros Hbs. destruct (sectionValid_Ok N HN bs Hbs) as (r & -> & Hiff).
  split.
  - intros [= ->] p q v Hpq Hp Hq.
    destruct (decide (v = 0)) as [|Hv]; [done|].
    assert (Hdup : ∃ v, v ≠ 0 ∧ occurs_twice v bs).
    { exists v. split; [done|].
      destruct (decide (p < q)%nat).
      - exists p, q. done.
      - exists q, p. split; [lia | done]. }
    apply Hiff in Hdup. done.
  - intros Hdistinct. destruct r; [done|].
    destruct (proj1 Hiff eq_refl) as (v & Hv & i & j & Hij & Hi & Hj).
    destruct Hv. apply (Hdistinct i j); [lia | done | done].
Qed.

Lemma section_in_range (b : GenSudoku) (bs : list Z) :
  in_range N b → section_of N b bs → Forall (λ c, 0 ≤ c ≤ N) bs.
Proof.
  intros Hb [_ HP]. pose proof (dimension_bound N HN).
  apply (HP (λ c, 0 ≤ c ≤ N)); [lia | done].
Qed.

Lemma rowValid_distinct (b : GenSudoku) (x : Z) :
  wf_board N b → in_range N b → 0 ≤ x < N →
  (rowValid N b x = Ok true ↔
   ∀ y1 y2 v, 0 ≤ y1 < N → 0 ≤ y2 < N → y1 ≠ y2 →
              get N b x y1 = Ok v → get N b x y2 = Ok v → v = 0).
Proof.
  intros Hwf Hrange Hx. unfold rowValid.
  destruct (row_spec N HN b x Hwf Hx) as (bs & -> & Hsec & Hrow).
  cbn [bind]. rewrite sectionValid_distinct by (by eapply section_in_range).
  destruct Hsec as [Hlen _]. split.
  - intros H y1 y2 v Hy1 Hy2 Hne H1 H2.
    apply (get_lookup b x) in H1; [|done|done|done].
    apply (get_lookup b x) in H2; [|done|done|done].
    apply (H (Z.to_nat y1) (Z.to_nat y2)); [lia | |].
    + by rewrite Hrow.
    + by rewrite Hrow.
  - intros H p q v Hpq Hp Hq.
    apply lookup_lt_Some in Hp as Hplt. apply lookup_lt_Some in Hq as Hqlt.
    apply (H (Z.of_nat p) (Z.of_nat q) v); [lia | lia | lia | |].
    + apply get_lookup; [done | done | lia |].
      by rewrite <- Hrow, Nat2Z.id by lia.
    + apply get_lookup; [done | done | lia |].
      by rewrite <- Hrow, Nat2Z.id by lia.
Qed.

Lemma col_section_of (b : GenSudoku) (y : Z) (bs : list Z) :
  wf_board N b → 0 ≤ y < N → col N b y = Ok bs → section_of N b bs.
Proof.
  intros Hwf Hy Hbs.
  destruct (col_spec N HN b y Hwf Hy) as (bs' & Hbs' & Hsec). congruence.
Qed.

Lemma colValid_distinct (b : GenSudoku) (y : Z) :
  wf_board N b → in_range N b → 0 ≤ y < N →
  (colValid N b y = Ok true ↔
   ∀ x1 x2 v, 0 ≤ x1 < N → 0 ≤ x2 < N → x1 ≠ x2 →
              get N b x1 y = Ok v → get N b x2 y = Ok v → v = 0).
Proof.
  intros Hwf Hrange Hy. unfold colValid.
  destruct (col_content b y Hwf Hy) as (bs & Hbs & Hlen & Hcol).
  pose proof (col_section_of b y bs Hwf Hy Hbs) as Hsec.
  rewrite Hbs. cbn [bind].
  rewrite sectionValid_distinct by (by eapply section_in_range).
  split.
  - intros H x1 x2 v Hx1 Hx2 Hne H1 H2.
    apply (get_lookup b _ y) in H1; [|done|done|done].
    apply (get_lookup b _ y) in H2; [|done|done|done].
    apply (H (Z.to_nat x1) (Z.to_nat x2)); [lia | |].
    + by rewrite Hcol.
    + by rewrite Hcol.
  - intros H p q v Hpq Hp Hq.
    apply lookup_lt_Some in Hp as Hplt. apply lookup_lt_Some in Hq as Hqlt.
    apply (H (Z.of_nat p) (Z.of_nat q) v); [lia | lia | lia | |].
    + apply get_lookup; [done | lia | done |].
      by rewrite <- Hcol, Nat2Z.id by lia.
    + apply get_lookup; [done | lia | done |].
      by rewrite <- Hcol, Nat2Z.id by lia.
Qed.

(** A position of a quadrant section as a pair of offsets. *)
Lemma quadrant_offsets (p : nat) :
  0 < side N → (p < Z.to_nat N)%nat →
  ∃ i j, 0 ≤ i < side N ∧ 0 ≤ j < side N ∧ Z.of_nat p = i * side N + j.
Proof.
  intros Hs0 Hp. destruct (side_cases N HN) as [Hs | [Hs Hsq]]; [lia|].
  exists (Z.of_nat p / side N), (Z.of_nat p mod side N). split_and!.
  - apply Z.div_pos; lia.
  - apply Z.div_lt_upper_bound; lia.
  - apply Z.mod_pos_bound; lia.
  - apply Z.mod_pos_bound; lia.
  - rewrite Z.mul_comm. apply Z.div_mod. lia.
Qed.

Lemma quadrant_section_of (b : GenSudoku) (x y : Z) (bs : list Z) :
  wf_board N b → 0 ≤ x < side N → 0 ≤ y < side N →
  quadrant N b x y = Ok bs → section_of N b bs.
Proof.
  intros Hwf Hx Hy Hbs.
  destruct (quadrant_spec N HN b x y Hwf Hx Hy) as (bs' & Hbs' & Hsec).
  congruence.
Qed.

Lemma quadrantValid_distinct (b : GenSudoku) (x y : Z) :
  wf_board N b → in_range N b → 0 ≤ x < side N → 0 ≤ y < side N →
  (quadrantValid N b x y = Ok true ↔
   ∀ i1 j1 i2 j2 v,
     0 ≤ i1 < side N → 0 ≤ j1 < side N →
     0 ≤ i2 < side N → 0 ≤ j2 < side N →
     (i1, j1) ≠ (i2, j2) →
     get N b (x * side N + i1) (y * side N + j1) = Ok v →
     get N b (x * side N + i2) (y * side N + j2) = Ok v → v = 0).
Proof.
  intros Hwf Hrange Hx Hy. unfold quadrantValid.
  assert (Hs0 : 0 < side N) by lia.
  destruct (quadrant_content b x y Hwf Hs0 Hx Hy) as (bs & Hbs & Hlen & Hq).
  pose proof (quadrant_section_of b x y bs Hwf Hx Hy Hbs) as Hsec.
  rewrite Hbs. cbn [bind].
  rewrite sectionValid_distinct by (by eapply section_in_range).
  set (s := side N) in *.
  assert (Hcell : ∀ i j v, 0 ≤ i < s → 0 ≤ j < s →
    (get N b (x * s + i) (y * s + j) = Ok v ↔
     bs !! Z.to_nat (i * s + j) = Some v)).
  { intros i j v Hi Hj.
    destruct (quadrant_indices x y i j Hs0 Hx Hy Hi Hj)
      as (_ & _ & Hxi & Hyj & _). fold s in Hxi, Hyj.
    rewrite get_lookup by done. by rewrite Hq. }
  split.
  - intros H i1 j1 i2 j2 v Hi1 Hj1 Hi2 Hj2 Hne H1 H2.
    apply Hcell in H1; [|done|done]. apply Hcell in H2; [|done|done].
    apply (H (Z.to_nat (i1 * s + j1)) (Z.to_nat (i2 * s + j2)));
      [| done | done].
    intros Heq. apply Hne.
    assert (i1 * s + j1 = i2 * s + j2) by nia.
    assert (i1 = i2) by nia. assert (j1 = j2) by nia. congruence.
  - intros H p q v Hpq Hp Hq'.
    apply lookup_lt_Some in Hp as Hplt. apply lookup_lt_Some in Hq' as Hqlt.
    destruct (quadrant_offsets p) as (i1 & j1 & Hi1 & Hj1 & Hp1); [done|lia|].
    destruct (quadrant_offsets q) as (i2 & j2 & Hi2 & Hj2 & Hq2); [done|lia|].
    fold s in Hi1, Hj1, Hp1, Hi2, Hj2, Hq2.
    apply (H i1 j1 i2 j2 v); [done | done | done | done | | |].
    + intros [= -> ->]. lia.
    + apply Hcell; [done | done |]. by rewrite <- Hp1, Nat2Z.id.
    + apply Hcell; [done | done |]. by rewrite <- Hq2, Nat2Z.id.
Qed.

Lemma div_offset (a i : Z) :
  0 < side N → 0 ≤ i < side N → (a * side N + i) / side N = a.
Proof.
  intros Hs Hi. rewrite Z.div_add_l by lia. rewrite Z.div_small by lia. lia.
Qed.

Lemma isValid_units (b : GenSudoku) :
  wf_board N b → in_range N b →
  (isValid N b = Ok true ↔
   ∀ x1 y1 x2 y2 v,
     0 ≤ x1 < N → 0 ≤ y1 < N → 0 ≤ x2 < N → 0 ≤ y2 < N →
     (x1, y1) ≠ (x2, y2) → same_unit N x1 y1 x2 y2 →
     get N b x1 y1 = Ok v → get N b x2 y2 = Ok v → v = 0).
Proof.
  intros Hwf Hrange. pose proof (dimension_bound N HN) as HNb.
  rewrite (isValid_true N). split.
  - intros (Hr & Hc & Hq) x1 y1 x2 y2 v Hx1 Hy1 Hx2 Hy2 Hne Hunit H1 H2.
    destruct Hunit as [<- | [<- | (Hs0 & Hbx & Hby)]].
    + apply (proj1 (rowValid_distinct b x1 Hwf Hrange Hx1) (Hr x1 Hx1)
               y1 y2 v); [done | done | congruence | done | done].
    + apply (proj1 (colValid_distinct b y1 Hwf Hrange Hy1) (Hc y1 Hy1)
               x1 x2 v); [done | done | congruence | done | done].
    + destruct (side_cases N HN) as [Hs | [_ Hsq]]; [lia|].
      set (s := side N) in *.
      assert (Hdm : ∀ a, 0 ≤ a < N →
                0 ≤ a / s < s ∧ 0 ≤ a mod s < s ∧ a = a / s * s + a mod s).
      { intros a Ha. split_and!.
        - apply Z.div_pos; lia.
        - apply Z.div_lt_upper_bound; lia.
        - apply Z.mod_pos_bound; lia.
        - apply Z.mod_pos_bound; lia.
        - rewrite Z.mul_comm. apply Z.div_mod. lia. }
      destruct (Hdm x1 Hx1) as (Hbx1 & Hi1 & Ex1).
      destruct (Hdm y1 Hy1) as (Hby1 & Hj1 & Ey1).
      destruct (Hdm x2 Hx2) as (_ & Hi2 & Ex2).
      destruct (Hdm y2 Hy2) as (_ & Hj2 & Ey2).
      rewrite <- Hbx in Ex2. rewrite <- Hby in Ey2.
      rewrite Ex1, Ey1 in H1. rewrite Ex2, Ey2 in H2.
      apply (proj1 (quadrantValid_distinct b (x1 / s) (y1 / s) Hwf Hrange
                      Hbx1 Hby1) (Hq _ _ Hbx1 Hby1)
               (x1 mod s) (y1 mod s) (x2 mod s) (y2 mod s) v);
        [done | done | done | done | | done | done].
      intros [= Ei Ej]. apply Hne. congruence.
  - intros H. split_and!.
    + intros x Hx. apply rowValid_distinct; [done | done | done|].
      intros y1 y2 v Hy1 Hy2 Hne. apply H; [done | done | done | done | |].
      * congruence.
      * by left.
    + intros y Hy. apply colValid_distinct; [done | done | done|].
      intros x1 x2 v Hx1 Hx2 Hne. apply H; [done | done | done | done | |].
      * congruence.
      * right. by left.
    + intros x y Hx Hy. assert (Hs0 : 0 < side N) by lia.
      apply quadrantValid_distinct; [done | done | done | done|].
      intros i1 j1 i2 j2 v Hi1 Hj1 Hi2 Hj2 Hne.
      destruct (quadrant_indices x y i1 j1 Hs0 Hx Hy Hi1 Hj1)
        as (_ & _ & Hx1 & Hy1 & _).
      destruct (quadrant_indices x y i2 j2 Hs0 Hx Hy Hi2 Hj2)
        as (_ & _ & Hx2 & Hy2 & _).
      apply H; [done | done | done | done | |].
      * intros [= Ei Ej]. apply Hne. f_equal; lia.
      * right. right. split; [done|]. by rewrite !div_offset.
Qed.

(** ** The sections of a solved board *)

Lemma section_permutation (bs : list Z) :
  length bs = Z.to_nat N →
  Forall (λ c, 1 ≤ c ≤ N) bs →
  sectionValid N bs = Ok true →
  bs ≡ₚ digits N.
Proof.
  intros Hlen Hbs Hvalid.
  assert (Hbs0 : Forall (λ c, 0 ≤ c ≤ N) bs).
  { apply list.Forall_forall. intros c Hc.
    rewrite list.Forall_forall in Hbs. specialize (Hbs c Hc). lia. }
  rewrite (sectionValid_distinct bs Hbs0) in Hvalid.
  rewrite list.Forall_forall in Hbs.
  assert (Hnodup : NoDup bs).
  { apply NoDup_alt. intros p q v Hp Hq.
    destruct (decide (p = q)) as [|Hne]; [done|].
    pose proof (Hvalid p q v Hne Hp Hq) as Hv0.
    assert (1 ≤ v ≤ N) by (apply Hbs; by eapply list_elem_of_lookup_2).
    lia. }
  apply submseteq_length_Permutation.
  - apply NoDup_submseteq; [done|]. intros v Hv. unfold digits.
    apply elem_of_seqZ. specialize (Hbs v Hv). lia.
  - unfold digits. rewrite length_seqZ. lia.
Qed.

Lemma solved_section (b : GenSudoku) (bs : list Z) :
  wf_board N b → isSolved N b = Ok true →
  length bs = Z.to_nat N →
  (∀ (p : nat) c, bs !! p = Some c → c ∈ boardState b) →
  sectionValid N bs = Ok true →
  bs ≡ₚ digits N.
Proof.
  intros Hwf Hsolved Hlen Hcells Hvalid.
  apply (isSolved_true N) in Hsolved as [Hv Hc].
  apply (isValid_in_range N HN b Hwf) in Hv.
  apply (isComplete_cells N HN b Hwf) in Hc.
  apply section_permutation; [done | | done].
  apply Forall_lookup. intros p c Hp. specialize (Hcells p c Hp).
  unfold in_range in Hv. rewrite list.Forall_forall in Hv, Hc.
  specialize (Hv c Hcells). specialize (Hc c Hcells). cbn in *. lia.
Qed.

Lemma solved_units (b : GenSudoku) :
  wf_board N b → isSolved N b = Ok true →
  (∀ x, 0 ≤ x < N → ∃ bs, row N b x = Ok bs ∧ bs ≡ₚ digits N) ∧
  (∀ y, 0 ≤ y < N → ∃ bs, col N b y = Ok bs ∧ bs ≡ₚ digits N) ∧
  (∀ x y, 0 ≤ x < side N → 0 ≤ y < side N →
          ∃ bs, quadrant N b x y = Ok bs ∧ bs ≡ₚ digits N).
Proof.
  intros Hwf Hsolved.
  pose proof Hsolved as [Hvalid _]%(isSolved_true N).
  apply (isValid_true N) in Hvalid as (Hr & Hc & Hq). split_and!.
  - intros x Hx. specialize (Hr x Hx). unfold rowValid in Hr.
    destruct (row_spec N HN b x Hwf Hx) as (bs & Hbs & [Hlen _] & Hrow).
    rewrite Hbs in Hr. exists bs. split; [done|].
    apply (solved_section b); [done | done | done | | done].
    intros p c Hp. apply lookup_lt_Some in Hp as Hplt.
    specialize (Hrow (Z.of_nat p)). rewrite Nat2Z.id, Hp in Hrow.
    symmetry in Hrow. eapply list_elem_of_lookup_2. apply Hrow. lia.
  - intros y Hy. specialize (Hc y Hy). unfold colValid in Hc.
    destruct (col_content b y Hwf Hy) as (bs & Hbs & Hlen & Hcol).
    rewrite Hbs in Hc. exists bs. split; [done|].
    apply (solved_section b); [done | done | done | | done].
    intros p c Hp. apply lookup_lt_Some in Hp as Hplt.
    specialize (Hcol (Z.of_nat p)). rewrite Nat2Z.id, Hp in Hcol.
    symmetry in Hcol. eapply list_elem_of_lookup_2. apply Hcol. lia.
  - intros x y Hx Hy. assert (Hs0 : 0 < side N) by lia.
    specialize (Hq x y Hx Hy). unfold quadrantValid in Hq.
    destruct (quadrant_content b x y Hwf Hs0 Hx Hy) as (bs & Hbs & Hlen & Hquad).
    rewrite Hbs in Hq. exists bs. split; [done|].
    apply (solved_section b); [done | done | done | | done].
    intros p c Hp. apply lookup_lt_Some in Hp as Hplt.
    destruct (quadrant_offsets p) as (i & j & Hi & Hj & Hpij); [done|lia|].
    specialize (Hquad i j Hi Hj). rewrite <- Hpij, Nat2Z.id, Hp in Hquad.
    symmetry in Hquad. by eapply list_elem_of_lookup_2.
Qed.

(** ** Completeness, section by section *)

Lemma sectionComplete_true (bs : list Z) :
  sectionComplete bs = true ↔ Forall (λ c, c ≠ 0) bs.
Proof.
  unfold sectionComplete. induction bs as [|c bs IH]; cbn [forallb].
  - split; [constructor | done].
  - rewrite andb_true_iff, IH, negb_true_iff, Z.eqb_neq. split.
    + intros [Hc Hbs]. by constructor.
    + by intros [Hc Hbs]%Forall_cons_1.
Qed.

Lemma zeros_none (b : GenSudoku) :
  zeros b = 0%nat ↔ Forall (λ c, c ≠ 0) (boardState b).
Proof.
  unfold zeros. induction (boardState b) as [|c l IH].
  - split; [constructor | done].
  - rewrite filter_cons. destruct (decide (c = 0)) as [->|Hc].
    + split; [done|]. by intros [Hc _]%Forall_cons_1.
    + rewrite IH. split.
      * intros Hl. by constructor.
      * by intros [_ Hl]%Forall_cons_1.
Qed.

Lemma section_nonzero (bs : list Z) (cellof : Z → Z → Prop) :
  length bs = Z.to_nat N →
  (∀ k v, 0 ≤ k < N → (cellof k v ↔ bs !! Z.to_nat k = Some v)) →
  (sectionComplete bs = true ↔
   ∀ k, 0 ≤ k < N → ∃ v, cellof k v ∧ v ≠ 0).
Proof.
  intros Hlen Hcell. rewrite sectionComplete_true, Forall_lookup. split.
  - intros H k Hk.
    destruct (lookup_lt_is_Some_2 bs (Z.to_nat k)) as [v Hv]; [lia|].
    exists v. split; [by apply Hcell | by eapply H].
  - intros H p c Hp. apply lookup_lt_Some in Hp as Hplt.
    destruct (H (Z.of_nat p)) as (v & Hv & Hv0); [lia|].
    apply Hcell in Hv; [|lia]. rewrite Nat2Z.id in Hv. congruence.
Qed.

Lemma rowComplete_cells (b : GenSudoku) (x : Z) :
  wf_board N b → 0 ≤ x < N →
  ∃ r, rowComplete N b x = Ok r ∧
       (r = true ↔ ∀ y, 0 ≤ y < N → ∃ v, get N b x y = Ok v ∧ v ≠ 0).
Proof.
  intros Hwf Hx. unfold rowComplete.
  destruct (row_spec N HN b x Hwf Hx) as (bs & -> & [Hlen _] & Hrow).
  cbn [bind]. eexists. split; [done|].
  apply (section_nonzero bs (λ y v, get N b x y = Ok v)); [done|].
  intros y v Hy. rewrite get_lookup by done. by rewrite Hrow.
Qed.

Lemma colComplete_cells (b : GenSudoku) (y : Z) :
  wf_board N b → 0 ≤ y < N →
  ∃ r, colComplete N b y = Ok r ∧
       (r = true ↔ ∀ x, 0 ≤ x < N → ∃ v, get N b x y = Ok v ∧ v ≠ 0).
Proof.
  intros Hwf Hy. unfold colComplete.
  destruct (col_content b y Hwf Hy) as (bs & -> & Hlen & Hcol).
  cbn [bind]. eexists. split; [done|].
  apply (section_nonzero bs (λ x v, get N b x y = Ok v)); [done|].
  intros x v Hx. rewrite get_lookup by done. by rewrite Hcol.
Qed.

Lemma quadrantComplete_cells (b : GenSudoku) (x y : Z) :
  wf_board N b → 0 ≤ x < side N → 0 ≤ y < side N →
  ∃ r, quadrantComplete N b x y = Ok r ∧
       (r = true ↔
        ∀ i j, 0 ≤ i < side N → 0 ≤ j < side N →
               ∃ v, get N b (x * side N + i) (y * side N + j) = Ok v ∧
                    v ≠ 0).
Proof.
  intros Hwf Hx Hy. unfold quadrantComplete.
  assert (Hs0 : 0 < side N) by lia.
  destruct (quadrant_content b x y Hwf Hs0 Hx Hy) as (bs & -> & Hlen & Hq).
  cbn [bind]. eexists. split; [done|].
  rewrite sectionComplete_true, Forall_lookup.
  assert (Hcell : ∀ i j v, 0 ≤ i < side N → 0 ≤ j < side N →
    (get N b (x * side N + i) (y * side N + j) = Ok v ↔
     bs !! Z.to_nat (i * side N + j) = Some v)).
  { intros i j v Hi Hj.
    destruct (quadrant_indices x y i j Hs0 Hx Hy Hi Hj)
      as (_ & _ & Hxi & Hyj & _).
    rewrite get_lookup by done. by rewrite Hq. }
  split.
  - intros H i j Hi Hj.
    destruct (quadrant_indices x y i j Hs0 Hx Hy Hi Hj)
      as (_ & _ & _ & _ & Hij).
    destruct (lookup_lt_is_Some_2 bs (Z.to_nat (i * side N + j)))
      as [v Hv]; [lia|].
    exists v. split; [by apply Hcell | by eapply H].
  - intros H p c Hp. apply lookup_lt_Some in Hp as Hplt.
    destruct (quadrant_offsets p) as (i & j & Hi & Hj & Hpij); [done|lia|].
    destruct (H i j Hi Hj) as (v & Hv & Hv0).
    apply Hcell in Hv; [|done|done].
    rewrite <- Hpij, Nat2Z.id in Hv. congruence.
Qed.

Lemma isComplete_rows (b : GenSudoku) :
  wf_board N b →
  (isComplete N b = Ok true ↔
   ∀ x, 0 ≤ x < N → rowComplete N b x = Ok true).
Proof.
  intros Hwf. rewrite (isComplete_true N). split.
  - intros H x Hx.
    destruct (rowComplete_cells b x Hwf Hx) as (r & -> & Hr).
    f_equal. apply Hr. intros y Hy. by apply H.
  - intros H x y Hx Hy. specialize (H x Hx).
    destruct (rowComplete_cells b x Hwf Hx) as (r & Hr & Hiff).
    rewrite Hr in H. injection H as ->. by apply Hiff.
Qed.

Lemma isComplete_cols (b : GenSudoku) :
  wf_board N b →
  (isComplete N b = Ok true ↔
   ∀ y, 0 ≤ y < N → colComplete N b y = Ok true).
Proof.
  intros Hwf. rewrite (isComplete_true N). split.
  - intros H y Hy.
    destruct (colComplete_cells b y Hwf Hy) as (r & -> & Hr).
    f_equal. apply Hr. intros x Hx. by apply H.
  - intros H x y Hx Hy. specialize (H y Hy).
    destruct (colComplete_cells b y Hwf Hy) as (r & Hr & Hiff).
    rewrite Hr in H. injection H as ->. by apply Hiff.
Qed.

Lemma isComplete_quadrants (b : GenSudoku) :
  wf_board N b → 0 < side N →
  (isComplete N b = Ok true ↔
   ∀ x y, 0 ≤ x < side N → 0 ≤ y < side N →
          quadrantComplete N b x y = Ok true).
Proof.
  intros Hwf Hs0. rewrite (isComplete_true N).
  destruct (side_cases N HN) as [Hs | [_ Hsq]]; [lia|]. split.
  - intros H x y Hx Hy.
    destruct (quadrantComplete_cells b x y Hwf Hx Hy) as (r & -> & Hr).
    f_equal. apply Hr. intros i j Hi Hj.
    destruct (quadrant_indices x y i j Hs0 Hx Hy Hi Hj)
      as (_ & _ & Hxi & Hyj & _).
    by apply H.
  - intros H x y Hx Hy.
    set (s := side N) in *.
    assert (Hdm : ∀ a, 0 ≤ a < N →
              0 ≤ a / s < s ∧ 0 ≤ a mod s < s ∧ a = a / s * s + a mod s).
    { intros a Ha. split_and!.
      - apply Z.div_pos; lia.
      - apply Z.div_lt_upper_bound; lia.
      - apply Z.mod_pos_bound; lia.
      - apply Z.mod_pos_bound; lia.
      - rewrite Z.mul_comm. apply Z.div_mod. lia. }
    destruct (Hdm x Hx) as (Hbx & Hi & Ex).
    destruct (Hdm y Hy) as (Hby & Hj & Ey).
    specialize (H (x / s) (y / s) Hbx Hby).
    destruct (quadrantComplete_cells b (x / s) (y / s) Hwf Hbx Hby)
      as (r & Hr & Hiff).
    rewrite Hr in H. injection H as ->.
    destruct (proj1 Hiff eq_refl (x mod s) (y mod s) Hi Hj) as (v & Hv & Hv0).
    fold s in Hv. rewrite <- Ex, <- Ey in Hv. by exists v.
Qed.

(** ** [solve]: a solved board or the board itself *)

Lemma try_digits_result (rec : GenSudoku → result GenSudoku)
    (b : GenSudoku) (x y : Z) (ds : list Z) (r : GenSudoku) :
  try_digits N rec b x y ds = Ok r →
  r = b ∨ (isComplete N r = Ok true ∧ isValid N r = Ok true).
Proof.
  induction ds as [|i ds IH]; [cbn; intros [= <-]; by left|].
  rewrite try_digits_cons. intros H.
  apply bind_Ok in H as ([ns ?] & _ & H).
  apply bind_Ok in H as (res & _ & H).
  apply bind_Ok in H as (c & Hc & H). destruct c; [|by apply IH].
  apply bind_Ok in H as (v & Hv & H). destruct v; [|by apply IH].
  injection H as <-. by right.
Qed.

Lemma solve_rec_result (fuel : nat) (b r : GenSudoku) :
  solve_rec N fuel b = Ok r →
  r = b ∨ isSolved N r = Ok true.
Proof.
  destruct fuel as [|fuel]; [done|]. rewrite solve_rec_S. intros H.
  apply bind_Ok in H as (v & _ & H).
  destruct v; cbn [negb] in H; [|injection H as <-; by left].
  apply bind_Ok in H as ([x y] & _ & H).
  destruct (x =? SIZE_MAX); [injection H as <-; by left|].
  apply try_digits_result in H as [-> | [Hc Hv]]; [by left|].
  right. by apply isSolved_true.
Qed.

Lemma solve_of_solved (b : GenSudoku) :
  isSolved N b = Ok true → solve N b = Ok b.
Proof.
  intros [Hv Hc]%(isSolved_true N).
  unfold solve. rewrite solve_rec_S, Hv. cbn [bind negb].
  rewrite (next_complete N b Hc). cbn [bind]. by rewrite Z.eqb_refl.
Qed.

Lemma solve_again (b r : GenSudoku) :
  solve N b = Ok r → solve N r = Ok r.
Proof.
  intros H. unfold solve in H.
  destruct (solve_rec_result _ b r H) as [-> | Hsolved]; [done|].
  by apply solve_of_solved.
Qed.

Lemma solve_solvable (b : GenSudoku) :
  wf_board N b → in_range N b →
  ∃ r, solve N b = Ok r ∧
       (isSolved N r = Ok true ↔ ∃ s, solution_of N b s) ∧
       ((¬ ∃ s, solution_of N b s) → r = b).
Proof.
  intros Hwf Hrange.
  destruct (solve_rec_total N HN (S (Z.to_nat (cells N))) b Hwf Hrange)
    as (r & Hr & Hwfr & _ & Hkeep & Hsol);
    [by apply (solve_fuel_enough N)|].
  exists r. split; [done|].
  assert (Hiff : isSolved N r = Ok true ↔ ∃ s, solution_of N b s).
  { split.
    - intros Hsolved. by exists r.
    - intros [s Hs]. by apply (Hsol s). }
  split; [done|]. intros Hnone.
  destruct (solve_rec_result _ b r Hr) as [-> | Hsolved]; [done|].
  destruct Hnone. by apply Hiff.
Qed.

(** ** Reads and writes of cells *)

Lemma index_mod (x y : Z) : index N x y = (x * N + y) mod SIZE_MOD.
Proof.
  unfold index, sz_add, sz_mul, sz_wrap.
  by rewrite Z.add_mod_idemp_l by (by rewrite SIZE_MOD_eq).
Qed.

Lemma foldM_OutOfBounds {St} (body : Z → St → result St) (k0 : Z)
    (ks : list Z) :
  (∀ k s, body k s ≠ OutOfFuel) → k0 ∈ ks →
  (∀ s, body k0 s = OutOfBounds) →
  ∀ s, foldM body ks s = OutOfBounds.
Proof.
  intros Hfuel Hk0 Hfail. induction ks as [|k ks IH]; intros s.
  - by apply not_elem_of_nil in Hk0.
  - cbn [foldM]. destruct (decide (k = k0)) as [->|Hne].
    + by rewrite Hfail.
    + apply elem_of_cons in Hk0 as [->|Hk0]; [done|].
      specialize (Hfuel k s).
      destruct (body k s) as [s'| |]; cbn [bind]; [by apply IH | done | done].
Qed.

(** ** [operator<<] *)

Lemma numbers_app (o1 o2 : list token) :
  numbers (o1 ++ o2) = numbers o1 ++ numbers o2.
Proof.
  induction o1 as [|[v| |] o1 IH]; cbn; [done | by rewrite IH | done | done].
Qed.

Lemma newlines_app (o1 o2 : list token) :
  newlines (o1 ++ o2) = (newlines o1 + newlines o2)%nat.
Proof.
  induction o1 as [|[v| |] o1 IH]; cbn; [done | done | done | by rewrite IH].
Qed.

Lemma print_spec (out : list token) (b : GenSudoku) :
  wf_board N b →
  ∃ out', print N out b = Ok out' ∧
          numbers out' = numbers out ++ boardState b ∧
          newlines out' = (newlines out + Z.to_nat N)%nat ∧
          length out' = (length out + Z.to_nat (N * (2 * N + 1)))%nat.
Proof.
  intros Hwf. pose proof (dimension_bound N HN) as HNb.
  pose proof Hwf as [Hlen _]. rewrite (cells_eq N HN) in Hlen.
  unfold print, range.
  set (inv := λ (k : Z) (nl : Z) (o : list token),
         numbers o = numbers out ++ take (Z.to_nat k) (boardState b) ∧
         newlines o = (newlines out + Z.to_nat nl)%nat ∧
         length o = (length out + Z.to_nat (2 * k + nl))%nat).
  destruct (foldM_range_inv
    (λ x o, inv (x * N) x o)
    (λ x o, let* o := foldM (λ y o, let* v := get N b x y in
                                    Ok (o ++ [Number v; Space]))
                            (seqZ 0 N) o in
            Ok (o ++ [Newline]))
    (Z.to_nat N) 0 out) as (out' & Hout' & Hn & Hnl & Hl).
  - unfold inv. cbn. rewrite app_nil_r. split_and!; [done | lia | lia].
  - intros x o Hx Hinv.
    destruct (foldM_range_inv
      (λ y o, inv (x * N + y) x o)
      (λ y o, let* v := get N b x y in Ok (o ++ [Number v; Space]))
      (Z.to_nat N) 0 o) as (o' & Ho' & Hn' & Hnl' & Hl').
    + by rewrite Z.add_0_r.
    + intros y o0 Hy (Hn0 & Hnl0 & Hl0).
      assert (Hx' : 0 ≤ x < N) by lia. assert (Hy' : 0 ≤ y < N) by lia.
      destruct (get_cell N HN b x y Hwf Hx' Hy') as (c & Hc & ->).
      cbn [bind]. eexists. split; [done|].
      pose proof (index_lt N x y Hx' Hy') as Hlt.
      unfold inv. rewrite numbers_app, newlines_app, length_app. cbn.
      split_and!.
      * replace (Z.to_nat (x * N + (y + 1)))
          with (S (Z.to_nat (x * N + y))) by lia.
        rewrite (take_S_r _ _ c Hc), Hn0. by rewrite app_assoc.
      * lia.
      * lia.
    + rewrite Z2Nat.id in Ho', Hn', Hl' by lia.
      rewrite Ho'. cbn [bind]. eexists. split; [done|].
      unfold inv. rewrite numbers_app, newlines_app, length_app. cbn.
      split_and!.
      * rewrite app_nil_r, Hn'. do 2 f_equal. lia.
      * lia.
      * lia.
  - exists out'. split; [by rewrite Z2Nat.id in Hout' by lia|].
    rewrite Z2Nat.id in Hn, Hnl, Hl by lia. split_and!.
    + rewrite Hn, take_ge; [done|]. lia.
    + lia.
    + rewrite Hl. f_equal. lia.
Qed.

End Contents.

(** ** Statements *)

Lemma aget_outside {A} (a : list A) (k : Z) :
  (length a ≤ Z.to_nat k)%nat → aget a k = OutOfBounds.
Proof. intros Hk. unfold aget. by rewrite lookup_ge_None_2. Qed.

Lemma dimension_9 : dimension 9.
Proof. unfold dimension. lia. Qed.

Lemma wf_expert : wf_board 9 expert.
Proof. split; [reflexivity | uint_cells]. Qed.

Lemma in_range_expert : in_range 9 expert.
Proof. unfold in_range, expert, boardState. cells_by lia. Qed.

Lemma expert_solution : solution_of 9 expert expert_solved.
Proof.
  split; [split; [reflexivity | uint_cells]|]. split; [reflexivity|].
  unfold keeps_clues, expert, expert_solved, boardState. clue_cells.
Qed.

(** X1.  Squaring and then taking [isqrt] gives the root back for every
    root from 2 up to (not including) 2^32; the squares 0 and 1 give 0,
    since the scan stops below [n]. *)
Theorem isqrt_roundtrip (s : Z) :
  0 ≤ s < 2 ^ 32 →
  math.isqrt (s * s) = if s <=? 1 then 0 else s.
Proof.
  intros Hs. destruct (Z.leb_spec s 1) as [Hle|Hgt].
  - assert (s = 0 ∨ s = 1) as [-> | ->] by lia; reflexivity.
  - apply isqrt_exact; [|nia|done].
    unfold is_size. rewrite SIZE_MOD_eq. nia.
Qed.

Lemma isqrt_roundtrip_witness : math.isqrt (3 * 3) = 3.
Proof. apply (isqrt_roundtrip 3). lia. Defined.

(** X2.  On a board, [row x] for a row of the grid succeeds and gives [N]
    entries, the entry at place [y] being the cell that [get x y]
    returns. *)
Theorem row_cells (N : Z) (b : GenSudoku) (x : Z) :
  dimension N → wf_board N b → 0 ≤ x < N →
  ∃ bs, row N b x = Ok bs ∧ length bs = Z.to_nat N ∧
        ∀ y, 0 ≤ y < N →
             ∃ c, bs !! Z.to_nat y = Some c ∧ get N b x y = Ok c.
Proof.
  intros HN Hwf Hx.
  destruct (row_spec N HN b x Hwf Hx) as (bs & Hbs & [Hlen _] & Hrow).
  exists bs. split; [done|]. split; [done|]. intros y Hy.
  destruct (get_cell N HN b x y Hwf Hx Hy) as (c & Hc & Hget).
  exists c. by rewrite Hrow.
Qed.

Lemma row_cells_witness :
  ∃ bs, row 4 small 1 = Ok bs ∧ length bs = Z.to_nat 4 ∧
        ∀ y, 0 ≤ y < 4 →
             ∃ c, bs !! Z.to_nat y = Some c ∧ get 4 small 1 y = Ok c.
Proof. apply (row_cells 4 small 1 dimension_4 wf_small). lia. Defined.

(** X3.  On a board, [col y] for a column of the grid succeeds and gives
    [N] entries, the entry at place [x] being the cell that [get x y]
    returns. *)
Theorem col_cells (N : Z) (b : GenSudoku) (y : Z) :
  dimension N → wf_board N b → 0 ≤ y < N →
  ∃ bs, col N b y = Ok bs ∧ length bs = Z.to_nat N ∧
        ∀ x, 0 ≤ x < N →
             ∃ c, bs !! Z.to_nat x = Some c ∧ get N b x y = Ok c.
Proof.
  intros HN Hwf Hy.
  destruct (col_content N HN b y Hwf Hy) as (bs & Hbs & Hlen & Hcol).
  exists bs. split; [done|]. split; [done|]. intros x Hx.
  destruct (get_cell N HN b x y Hwf Hx Hy) as (c & Hc & Hget).
  exists c. by rewrite Hcol.
Qed.

Lemma col_cells_witness :
  ∃ bs, col 4 small 2 = Ok bs ∧ length bs = Z.to_nat 4 ∧
        ∀ x, 0 ≤ x < 4 →
             ∃ c, bs !! Z.to_nat x = Some c ∧ get 4 small x 2 = Ok c.
Proof. apply (col_cells 4 small 2 dimension_4 wf_small). lia. Defined.

(** X4.  When [side()] is positive its square is [N], and [quadrant x y]
    for a quadrant of the grid succeeds and gives [N] entries: the entry
    at place [i * side + j] is the cell at row [x * side + i] and column
    [y * side + j], so the section is the quadrant read row by row. *)
Theorem quadrant_cells (N : Z) (b : GenSudoku) (x y : Z) :
  dimension N → wf_board N b → 0 ≤ x < side N → 0 ≤ y < side N →
  side N * side N = N ∧
  ∃ bs, quadrant N b x y = Ok bs ∧ length bs = Z.to_nat N ∧
        ∀ i j, 0 ≤ i < side N → 0 ≤ j < side N →
               ∃ c, bs !! Z.to_nat (i * side N + j) = Some c ∧
                    get N b (x * side N + i) (y * side N + j) = Ok c.
Proof.
  intros HN Hwf Hx Hy. assert (Hs0 : 0 < side N) by lia.
  split; [destruct (side_cases N HN) as [? | [_ ?]]; [lia | done]|].
  destruct (quadrant_content N HN b x y Hwf Hs0 Hx Hy)
    as (bs & Hbs & Hlen & Hq).
  exists bs. split; [done|]. split; [done|]. intros i j Hi Hj.
  destruct (quadrant_indices N HN x y i j Hs0 Hx Hy Hi Hj)
    as (_ & _ & Hxi & Hyj & _).
  destruct (get_cell N HN b _ _ Hwf Hxi Hyj) as (c & Hc & Hget).
  exists c. by rewrite Hq.
Qed.

Lemma quadrant_cells_witness :
  side 4 * side 4 = 4 ∧
  ∃ bs, quadrant 4 small 1 0 = Ok bs ∧ length bs = Z.to_nat 4 ∧
        ∀ i j, 0 ≤ i < side 4 → 0 ≤ j < side 4 →
               ∃ c, bs !! Z.to_nat (i * side 4 + j) = Some c ∧
                    get 4 small (1 * side 4 + i) (0 * side 4 + j) = Ok c.
Proof.
  apply (quadrant_cells 4 small 1 0 dimension_4 wf_small).
  - vm_compute. split; [discriminate | reflexivity].
  - vm_compute. split; [discriminate | reflexivity].
Defined.

(** X5.  [row] and [col] index the array without a check: asked for a
    row or a column at or beyond [N] they read outside the array, where
    [get] on the same row answers [0]. *)
Theorem sections_unchecked (N : Z) (b : GenSudoku) (k : Z) :
  dimension N → wf_board N b → 0 < N → N ≤ k → k * N + N ≤ SIZE_MOD →
  row N b k = OutOfBounds ∧ col N b k = OutOfBounds ∧ get N b k 0 = Ok 0.
Proof.
  intros HN [Hlen _] HN0 Hk Hfit. pose proof (dimension_bound N HN) as HNb.
  rewrite (cells_eq N HN) in Hlen.
  assert (Hrow0 : index N k 0 = k * N).
  { rewrite index_mod, Z.add_0_r. apply Z.mod_small. nia. }
  assert (Hcol : index N (N - 1) k = (N - 1) * N + k).
  { rewrite index_mod. apply Z.mod_small. nia. }
  split_and!.
  - unfold row. apply (foldM_OutOfBounds _ 0).
    + intros y bs. apply extract_fueled.
    + apply range_elem. lia.
    + intros bs. rewrite Hrow0, aget_outside; [done | nia].
  - unfold col. apply (foldM_OutOfBounds _ (N - 1)).
    + intros x bs. apply extract_fueled.
    + apply range_elem. lia.
    + intros bs. rewrite Hcol, aget_outside; [done | nia].
  - apply get_outside. rewrite Hrow0, (cells_eq N HN). nia.
Qed.

Lemma sections_unchecked_witness :
  row 4 small 4 = OutOfBounds ∧ col 4 small 4 = OutOfBounds ∧
  get 4 small 4 0 = Ok 0.
Proof.
  apply (sections_unchecked 4 small 4 dimension_4 wf_small); [lia | lia |].
  rewrite SIZE_MOD_eq. lia.
Defined.

(** X6.  On a board whose cells lie in [0, N], [isValid] answers, and
    the answer is [true] exactly when no two different cells that share a
    row, a column or a quadrant hold the same non-zero value.  Quadrants
    count only when [side()] is positive. *)
Theorem isValid_rule (N : Z) (b : GenSudoku) :
  dimension N → wf_board N b → in_range N b →
  (∃ v, isValid N b = Ok v) ∧
  (isValid N b = Ok true ↔
   ∀ x1 y1 x2 y2 v,
     0 ≤ x1 < N → 0 ≤ y1 < N → 0 ≤ x2 < N → 0 ≤ y2 < N →
     (x1, y1) ≠ (x2, y2) → same_unit N x1 y1 x2 y2 →
     get N b x1 y1 = Ok v → get N b x2 y2 = Ok v → v = 0).
Proof.
  intros HN Hwf Hrange. split.
  - by apply isValid_Ok.
  - by apply isValid_units.
Qed.

Lemma isValid_rule_witness :
  (∃ v, isValid 4 small = Ok v) ∧
  (isValid 4 small = Ok true ↔
   ∀ x1 y1 x2 y2 v,
     0 ≤ x1 < 4 → 0 ≤ y1 < 4 → 0 ≤ x2 < 4 → 0 ≤ y2 < 4 →
     (x1, y1) ≠ (x2, y2) → same_unit 4 x1 y1 x2 y2 →
     get 4 small x1 y1 = Ok v → get 4 small x2 y2 = Ok v → v = 0).
Proof.
  exact (isValid_rule 4 small dimension_4 wf_small in_range_small).
Defined.

(** X7.  Emptying cells of a valid board leaves it valid: when [isValid]
    answers [true] on a board, it answers [true] on every board that has
    the same cells or [0] in their place. *)
Theorem isValid_erase (N : Z) (b s : GenSudoku) :
  keeps_clues b s → isValid N s = Ok true → isValid N b = Ok true.
Proof. apply isValid_mono. Qed.

Lemma isValid_erase_witness : isValid 4 small = Ok true.
Proof.
  apply (isValid_erase 4 small small_solved small_solved_keeps).
  reflexivity.
Defined.

(** X8.  [isValid] answers [true] only on boards of digits: every cell of
    such a board lies in [0, N].  A section with an entry above [N] never
    makes [sectionValid] answer [true] (the entry is outside the presence
    table). *)
Theorem valid_digits (N : Z) (b : GenSudoku) :
  dimension N → wf_board N b →
  (isValid N b = Ok true → in_range N b) ∧
  (∀ bs, Forall (λ c, 0 ≤ c) bs → sectionValid N bs = Ok true →
         Forall (λ c, c ≤ N) bs).
Proof.
  intros HN Hwf. split; [by apply isValid_in_range|].
  intros bs Hbs Hvalid. unfold sectionValid in Hvalid.
  apply sectionValid_loop_bound in Hvalid.
  rewrite (positions_length N HN) in Hvalid.
  rewrite list.Forall_forall in Hbs, Hvalid. apply list.Forall_forall.
  intros c Hc. specialize (Hbs c Hc). specialize (Hvalid c Hc).
  destruct HN. cbn in *. lia.
Qed.

Lemma valid_digits_witness : in_range 4 small_solved.
Proof.
  destruct (valid_digits 4 small_solved dimension_4 wf_small_solved)
    as [H _].
  apply H. reflexivity.
Defined.

(** X9.  A board is complete exactly when it has no empty cell, exactly
    when every row is complete, exactly when every column is complete
    and, for a positive [side()], exactly when every quadrant is
    complete. *)
Theorem isComplete_sections (N : Z) (b : GenSudoku) :
  dimension N → wf_board N b →
  (isComplete N b = Ok true ↔ zeros b = 0%nat) ∧
  (isComplete N b = Ok true ↔
   ∀ x, 0 ≤ x < N → rowComplete N b x = Ok true) ∧
  (isComplete N b = Ok true ↔
   ∀ y, 0 ≤ y < N → colComplete N b y = Ok true) ∧
  (0 < side N →
   (isComplete N b = Ok true ↔
    ∀ x y, 0 ≤ x < side N → 0 ≤ y < side N →
           quadrantComplete N b x y = Ok true)).
Proof.
  intros HN Hwf. split_and!.
  - rewrite zeros_none. by apply isComplete_cells.
  - by apply isComplete_rows.
  - by apply isComplete_cols.
  - intros Hs0. by apply isComplete_quadrants.
Qed.

Lemma isComplete_sections_witness : isComplete 4 small_solved = Ok true.
Proof.
  destruct (isComplete_sections 4 small_solved dimension_4 wf_small_solved)
    as [H _].
  apply H. reflexivity.
Defined.

(** X10.  [next] always answers.  On a complete board the answer is the
    pair of [SIZE_MAX]; otherwise it is the position of an empty cell of
    the grid, and every cell before it in row-major order is filled. *)
Theorem next_first_empty (N : Z) (b : GenSudoku) :
  dimension N → wf_board N b →
  ∃ x y, next N b = Ok (x, y) ∧
    ((x = SIZE_MAX ∧ y = SIZE_MAX ∧ isComplete N b = Ok true) ∨
     (0 ≤ x < N ∧ 0 ≤ y < N ∧ get N b x y = Ok 0 ∧
      isComplete N b = Ok false ∧
      ∀ x' y', 0 ≤ x' < N → 0 ≤ y' < N → x' * N + y' < x * N + y →
               ∃ v, get N b x' y' = Ok v ∧ v ≠ 0)).
Proof.
  intros HN Hwf. destruct (next_Ok N HN b Hwf) as [[x y] Hnext].
  exists x, y. split; [done|].
  destruct (next_cases N HN b _ Hnext) as [[[= -> ->] Hall] | Hfound].
  - left. split; [done|]. split; [done|]. by apply isComplete_true.
  - right. destruct Hfound as (x0 & y0 & [= <- <-] & Hx & Hy & Hget & Hbefore).
    split; [done|]. split; [done|]. split; [done|]. split; [|done].
    destruct (isComplete_Ok N HN b Hwf) as [[] Hc]; [|done].
    rewrite isComplete_true in Hc.
    destruct (Hc x y Hx Hy) as (v & Hv & Hv0). congruence.
Qed.

Lemma next_first_empty_witness :
  ∃ x y, next 4 small = Ok (x, y) ∧
    ((x = SIZE_MAX ∧ y = SIZE_MAX ∧ isComplete 4 small = Ok true) ∨
     (0 ≤ x < 4 ∧ 0 ≤ y < 4 ∧ get 4 small x y = Ok 0 ∧
      isComplete 4 small = Ok false ∧
      ∀ x' y', 0 ≤ x' < 4 → 0 ≤ y' < 4 → x' * 4 + y' < x * 4 + y →
               ∃ v, get 4 small x' y' = Ok v ∧ v ≠ 0)).
Proof. exact (next_first_empty 4 small dimension_4 wf_small). Defined.

(** X11.  [get] checks the linear index only, not the column: a column
    at or beyond [N] reads the cell of a later row, [get x y] being
    [get (x + y / N) (y mod N)]. *)
Theorem get_column_overflow (N : Z) (b : GenSudoku) (x y : Z) :
  0 < N → get N b x y = get N b (x + y / N) (y mod N).
Proof.
  intros HN0. unfold get. rewrite !index_mod.
  replace ((x + y / N) * N + y mod N) with (x * N + y); [done|].
  rewrite (Z.div_mod y N) at 1 by lia. ring.
Qed.

Lemma get_column_overflow_witness : get 4 small 0 6 = get 4 small 1 2.
Proof. apply (get_column_overflow 4 small 0 6). lia. Defined.

(** X12.  Writes compose as on an array.  A second [put] at the same
    position replaces the first, a [get] at another linear index does not
    see the write, and two writes at different linear indices give the
    same outcome in either order, an error included. *)
Theorem put_compose (N : Z) (b b1 this1 : GenSudoku) (x y v : Z) :
  put N b x y v = Ok (b1, this1) →
  (∀ w, put N b1 x y w = put N b x y w) ∧
  (∀ x' y', index N x' y' ≠ index N x y →
            get N b1 x' y' = get N b x' y') ∧
  (∀ x' y' w, index N x' y' ≠ index N x y →
     (let* (b2, _) := put N b x y v in put N b2 x' y' w)
     = (let* (b2, _) := put N b x' y' w in put N b2 x y v)).
Proof.
  unfold put. intros H. apply bind_Ok in H as (bs & Hbs & [= <- <-]).
  apply aset_Ok in Hbs as [Hlt ->].
  pose proof (index_range N x y) as Hi. split_and!.
  - intros w. cbn [boardState].
    rewrite (aset_lt (<[_ := v]> _)) by (rewrite length_insert; lia).
    rewrite aset_lt by lia. cbn [bind].
    by rewrite list_insert_insert_eq.
  - intros x' y' Hne. pose proof (index_range N x' y') as Hi'.
    unfold get, aget. cbn [boardState].
    rewrite list_lookup_insert_ne by lia. done.
  - intros x' y' w Hne. pose proof (index_range N x' y') as Hi'.
    rewrite (aset_lt (boardState b) (index N x y)) by done.
    cbn [bind boardState].
    destruct (decide (Z.to_nat (index N x' y') < length (boardState b))%nat)
      as [Hlt'|Hge'].
    + rewrite (aset_lt (boardState b) (index N x' y')) by done.
      cbn [bind boardState].
      rewrite !aset_lt by (rewrite length_insert; lia). cbn [bind].
      rewrite list_insert_insert_ne by lia. done.
    + rewrite (aset_ge (boardState b) (index N x' y')) by lia.
      rewrite aset_ge by (rewrite length_insert; lia). done.
Qed.

Lemma put_compose_witness :
  put 4 (mkSudoku (<[1%nat := 2]> (boardState small))) 0 1 3
  = put 4 small 0 1 3.
Proof.
  destruct (put_compose 4 small (mkSudoku (<[1%nat := 2]> (boardState small)))
              (mkSudoku (<[1%nat := 2]> (boardState small))) 0 1 2)
    as [H _]; [reflexivity | exact (H 3)].
Defined.

(** X13.  Whatever [solve] returns is either the board it was given,
    unchanged, or a solved board: no partly filled board comes back. *)
Theorem solve_unchanged_or_solved (N : Z) (b r : GenSudoku) :
  solve N b = Ok r → r = b ∨ isSolved N r = Ok true.
Proof. unfold solve. apply solve_rec_result. Qed.

Lemma solve_unchanged_or_solved_witness :
  small_solved = small ∨ isSolved 4 small_solved = Ok true.
Proof.
  apply (solve_unchanged_or_solved 4 small small_solved).
  vm_compute. reflexivity.
Defined.

(** X14.  [solve] is idempotent on every board: solving a result of
    [solve] returns that result. *)
Theorem solve_idempotent (N : Z) (b r : GenSudoku) :
  solve N b = Ok r → solve N r = Ok r.
Proof. apply solve_again. Qed.

Lemma solve_idempotent_witness :
  solve 4 small_solved = Ok small_solved.
Proof.
  apply (solve_idempotent 4 small small_solved).
  vm_compute. reflexivity.
Defined.

(** X15.  On a board whose cells lie in [0, N], [solve] returns a solved
    board exactly when some solved board keeps the clues; when none does,
    it returns the board it was given. *)
Theorem solve_solvable_iff (N : Z) (b : GenSudoku) :
  dimension N → wf_board N b → in_range N b →
  ∃ r, solve N b = Ok r ∧
       (isSolved N r = Ok true ↔
        ∃ s, wf_board N s ∧ isSolved N s = Ok true ∧ keeps_clues b s) ∧
       ((¬ ∃ s, wf_board N s ∧ isSolved N s = Ok true ∧ keeps_clues b s) →
        r = b).
Proof. intros HN Hwf Hrange. by apply solve_solvable. Qed.

Lemma solve_solvable_iff_witness :
  ∃ r, solve 9 expert = Ok r ∧
       (isSolved 9 r = Ok true ↔
        ∃ s, wf_board 9 s ∧ isSolved 9 s = Ok true ∧ keeps_clues expert s) ∧
       ((¬ ∃ s, wf_board 9 s ∧ isSolved 9 s = Ok true ∧
                keeps_clues expert s) →
        r = expert).
Proof.
  exact (solve_solvable_iff 9 expert dimension_9 wf_expert in_range_expert).
Defined.

(** X16.  In a solved board every row, every column and every quadrant
    is a permutation of the digits [1..N]. *)
Theorem solved_sections (N : Z) (b : GenSudoku) :
  dimension N → wf_board N b → isSolved N b = Ok true →
  (∀ x, 0 ≤ x < N → ∃ bs, row N b x = Ok bs ∧ bs ≡ₚ digits N) ∧
  (∀ y, 0 ≤ y < N → ∃ bs, col N b y = Ok bs ∧ bs ≡ₚ digits N) ∧
  (∀ x y, 0 ≤ x < side N → 0 ≤ y < side N →
          ∃ bs, quadrant N b x y = Ok bs ∧ bs ≡ₚ digits N).
Proof. intros HN Hwf Hsolved. by apply solved_units. Qed.

Lemma solved_sections_witness :
  ∃ bs, row 9 expert_solved 0 = Ok bs ∧ bs ≡ₚ digits 9.
Proof.
  destruct expert_solution as (Hwf & Hsolved & _).
  destruct (solved_sections 9 expert_solved dimension_9 Hwf Hsolved)
    as [H _].
  apply H. lia.
Defined.

(** X17.  Printing a board never fails and appends, to what the stream
    holds, the [N * N] cells in row-major order, each followed by a
    space, and a line end after each row: [N * (2 * N + 1)] characters
    and numbers in all. *)
Theorem print_board (N : Z) (out : list token) (b : GenSudoku) :
  dimension N → wf_board N b →
  ∃ out', print N out b = Ok out' ∧
          numbers out' = numbers out ++ boardState b ∧
          newlines out' = (newlines out + Z.to_nat N)%nat ∧
          length out' = (length out + Z.to_nat (N * (2 * N + 1)))%nat.
Proof. intros HN Hwf. by apply print_spec. Qed.

Lemma print_board_witness :
  ∃ out', print 4 [] small = Ok out' ∧
          numbers out' = numbers [] ++ boardState small ∧
          newlines out' = (newlines [] + Z.to_nat 4)%nat ∧
          length out' = (length ([] : list token)
                         + Z.to_nat (4 * (2 * 4 + 1)))%nat.
Proof. exact (print_board 4 [] small dimension_4 wf_small). Defined.

(** X18.  The body of [main] on a board whose cells lie in [0, 9] ends
    with a status: it prints the board that [solve] returns, in nine
    lines, and the status is [0] when some solved board keeps the clues
    and [1] when none does.  On the board of [main] the status is [0]. *)
Theorem run_status (b : GenSudoku) :
  wf_board 9 b → in_range 9 b →
  ∃ res out status,
    run b = Ok (out, status) ∧ solve 9 b = Ok res ∧
    numbers out = boardState res ∧ newlines out = 9%nat ∧
    ((∃ s, wf_board 9 s ∧ isSolved 9 s = Ok true ∧ keeps_clues b s) →
     status = 0) ∧
    ((¬ ∃ s, wf_board 9 s ∧ isSolved 9 s = Ok true ∧ keeps_clues b s) →
     status = 1 ∧ res = b).
Proof.
  intros Hwf Hrange.
  destruct (solve_solvable 9 dimension_9 b Hwf Hrange)
    as (res & Hres & Hiff & Hnone).
  destruct (solve_rec_keeps 9 dimension_9 _ b res Hwf Hres) as [Hwfres _].
  destruct (print_spec 9 dimension_9 [] res Hwfres)
    as (out & Hout & Hnum & Hnl & _).
  destruct (solve_rec_result 9 _ b res Hres) as [-> | Hsolved].
  - destruct (isValid_Ok 9 dimension_9 b Hwf Hrange) as [v Hv].
    destruct (isComplete_Ok 9 dimension_9 b Hwf) as [c Hc].
    exists b, out, (if v && c then 0 else 1).
    split.
    { unfold run. rewrite Hres. cbn [bind]. rewrite Hout. cbn [bind].
      unfold isSolved. rewrite Hv. cbn [bind].
      destruct v; cbn [andb]; [by rewrite Hc | done]. }
    split; [done|]. split; [done|]. split; [done|].
    assert (Hvc : v && c = true ↔ isSolved 9 b = Ok true).
    { rewrite (isSolved_true 9), Hv, Hc, andb_true_iff.
      split; intros [? ?]; split; congruence. }
    split.
    + intros Hs. apply Hiff in Hs. apply Hvc in Hs. by rewrite Hs.
    + intros Hs. split; [|done]. destruct (v && c) eqn:E; [|done].
      destruct Hs. apply Hiff. by apply Hvc.
  - exists res, out, 0. split.
    { unfold run. rewrite Hres. cbn [bind]. rewrite Hout. cbn [bind].
      by rewrite Hsolved. }
    split; [done|]. split; [done|]. split; [done|]. split; [done|].
    intros Hs. destruct Hs. by apply Hiff.
Qed.

Lemma run_status_witness : ∃ out, main = Ok (out, 0).
Proof.
  destruct (run_status expert wf_expert in_range_expert)
    as (res & out & status & Hrun & _ & _ & _ & Hzero & _).
  exists out. unfold main. rewrite Hrun. do 2 f_equal.
  apply Hzero. exists expert_solved. exact expert_solution.
Defined.

(** X19.  For every [size_t] value [n], [isqrt n] scans [0 <= t < n] for
    [t*t == n], the product being the one of the type: when such a [t]
    exists the result is the least of them (and so satisfies
    [t*t == n]); when none exists the result is [0].  No other outcome
    exists: [isqrt] is a total function into the integers.  Two
    consequences relate the machine product to the exact one: a perfect
    square with root below [n] yields exactly that root, and up to
    [n = 2^32] no product of the scan wraps, so the result is an exact root
    or [0] with no exact root in the interval. *)
Theorem isqrt_spec (n : Z) :
  is_size n →
  (∀ t, 0 ≤ t < n → sz_mul t t = n →
     0 ≤ math.isqrt n ≤ t ∧ sz_mul (math.isqrt n) (math.isqrt n) = n) ∧
  ((∀ t, 0 ≤ t < n → sz_mul t t ≠ n) → math.isqrt n = 0) ∧
  (∀ s, 0 ≤ s < n → s * s = n → math.isqrt n = s) ∧
  (n ≤ 2 ^ 32 →
     (0 ≤ math.isqrt n < n ∧ math.isqrt n * math.isqrt n = n) ∨
     (math.isqrt n = 0 ∧ ∀ t, 0 ≤ t < n → t * t ≠ n)).
Proof.
  intros Hsz. destruct (isqrt_scan n Hsz) as [H1 H2].
  split; [done|]. split; [done|]. split.
  - intros s. by apply isqrt_exact.
  - intros Hsmall. apply isqrt_no_wrap. destruct Hsz. lia.
Qed.

Lemma isqrt_spec_witness :
  math.isqrt 9 = 3.
Proof.
  assert (Hsz : is_size 9) by (unfold is_size; rewrite SIZE_MOD_eq; lia).
  destruct (isqrt_spec 9 Hsz) as (_ & _ & H & _).
  apply (H 3); [lia | reflexivity].
Defined.
